(** * liblw: the buffered asynchronous stream [lw::event::BasicStream]

    A shallow embedding of [source/lw/event/BasicStream.cpp] and the
    properties its specification states about the read path, the write path
    and the read-buffer pool.

    Conventions.
    - C++ integers are [Z] with the wrap-around of their type written out:
      [std::size_t] is 64 bits wide (LP64), [unsigned int] is 32 bits wide.
    - Pointers are [Z] addresses; only their identity matters here.
    - A member function of [BasicStream] that mutates the shared [_State], or
      that can throw, is a computation in the monad [M]: it maps a [World] to
      an [Outcome] and the world it leaves behind.  A thrown exception keeps
      every mutation made before the [throw], as in C++.
    - What the reactor decides (the status an [uv_*] call returns, the
      address the allocator hands out) is an explicit argument of the
      function that asks for it.
    - Calls that leave the stream (to libuv, to the consumer's per-chunk
      callback, to the read promise) are appended to the world's [trace]. *)

From Stdlib Require Import ZArith List Lia Bool Permutation.
Import ListNotations.
Local Open Scope Z_scope.

(* ------------------------------------------------------------------ *)
(** ** libuv: the constants and the one helper the stream uses *)

Module Uv.

(** [UV_EOF] of uv.h ([UV__EOF] in uv-errno.h). *)
Definition UV_EOF : Z := -4095.

(** Conversion to [std::size_t] and to [unsigned int]. *)
Definition to_size_t (z : Z) : Z := z mod 2 ^ 64.
Definition to_uint (z : Z) : Z := z mod 2 ^ 32.

Record uv_buf_t : Type := mk_buf { base : Z; len : Z }.

(** [uv_buf_t uv_buf_init(char* base, unsigned int len)]. *)
Definition uv_buf_init (b : Z) (l : Z) : uv_buf_t :=
  {| base := b; len := to_uint l |}.

End Uv.

(* ------------------------------------------------------------------ *)
(** ** memory::Buffer *)

Module Memory.

(** Modelled from the spec: [memory::Buffer] (its header is not part of
    the sources at hand) is a byte region with a start address [data()] and
    a [size()].  [Buffer(n)] owns fresh storage of [n] bytes;
    [Buffer(base, n)] is a view of [n] bytes starting at [base]. *)
Record Buffer : Type := mkBuffer { data : Z; size : Z }.

Definition Buffer_eq_dec (a b : Buffer) : {a = b} + {a <> b}.
Proof. decide equality; apply Z.eq_dec. Defined.

End Memory.

(* ------------------------------------------------------------------ *)
(** ** Exceptions *)

(** Modelled from the spec: [StreamError], the one error kind of the stream,
    is built from the status code of the reactor; [LW_UV_ERROR(StreamError,
    res)] does so (the class and the macro are declared in headers that are
    not part of the sources at hand).  [bad_function_call] is what calling
    an empty [std::function] throws. *)
Inductive Exception : Type :=
| StreamError (code : Z)
| bad_function_call.

(* ------------------------------------------------------------------ *)
(** ** Promise and Future *)

Module Promise.

(** Modelled from the spec: the slot of a promise starts pending and moves
    once to resolved with a value or to rejected with an error. *)
Inductive Slot : Type :=
| pending
| resolved (value : Z)
| rejected (error : Exception).

(** Modelled from the spec: [Promise<std::size_t>] and its [Future]
    (lw/event/Promise.hpp and Promise.impl.hpp are not part of the sources
    at hand).  A promise is a shared single-resolution slot with at most
    one continuation; [then] attaches the continuation and returns the
    future of a new promise, which the continuation's result resolves.
    [Plain s] is a promise without continuation, [Then s f next] one whose
    continuation [f] feeds the promise [next] behind the future that
    [then] returned. *)
Inductive t : Type :=
| Plain (s : Slot)
| Then (s : Slot) (onValue : Z -> Z) (next : t).

(** The slot a [future()] of the promise reads. *)
Definition state (p : t) : Slot :=
  match p with
  | Plain s => s
  | Then s _ _ => s
  end.

(** The slot behind the future that the last [then] of the chain
    returned (the promise's own slot when nothing is attached). *)
Fixpoint outcome (p : t) : Slot :=
  match p with
  | Plain s => s
  | Then _ _ next => outcome next
  end.

Definition is_pending (s : Slot) : bool :=
  match s with pending => true | _ => false end.

(** Modelled from the spec: [resolve(value)] moves a pending slot to
    resolved and invokes the attached continuation synchronously with the
    value; on a slot that is already settled it has no effect. *)
Fixpoint resolve (v : Z) (p : t) : t :=
  match p with
  | Plain s => if is_pending s then Plain (resolved v) else p
  | Then s f next =>
      if is_pending s then Then (resolved v) f (resolve (f v) next) else p
  end.

(** Modelled from the spec: [reject(error)] moves a pending slot to
    rejected; the error short-circuits the chain, it reaches the end of it
    without running the continuations. *)
Fixpoint reject (e : Exception) (p : t) : t :=
  match p with
  | Plain s => if is_pending s then Plain (rejected e) else p
  | Then s f next =>
      if is_pending s then Then (rejected e) f (reject e next) else p
  end.

(** Modelled from the spec: [reset()] returns the slot to pending and
    discards a buffered result. *)
Definition reset (p : t) : t :=
  match p with
  | Plain _ => Plain pending
  | Then _ f next => Then pending f next
  end.

(** Modelled from the spec: [future().then(f)] on the last future of the
    chain.  A continuation attached to a slot that is already settled
    fires at once. *)
Fixpoint then_ (f : Z -> Z) (p : t) : t :=
  match p with
  | Plain s =>
      Then s f (match s with
                | pending => Plain pending
                | resolved v => Plain (resolved (f v))
                | rejected e => Plain (rejected e)
                end)
  | Then s g next => Then s g (then_ f next)
  end.

End Promise.

(* ------------------------------------------------------------------ *)
(** ** The pending-write record *)

Module _details.

(** [_details::WriteRequest].  The member [uv_write_t request] only carries
    the pointer back to the record, by which the completion callback finds
    [promise] and [size]. *)
Record WriteRequest : Type := mkWriteRequest {
  promise : Promise.t;
  size : Z
}.

End _details.

(* ------------------------------------------------------------------ *)
(** ** BasicStream *)

Module BasicStream.

Import Memory.

(** The consumer's per-chunk delivery function, [std::function<void(
    buffer_ptr_t)>].  The stream only stores it, tests it against
    [nullptr] and calls it, so it is known by a name. *)
Definition Callback : Type := nat.

(** Modelled from the spec: [BasicStream::_State], the StreamState (it is
    declared in lw/event/BasicStream.hpp, which is not part of the sources
    at hand).  The fields are the ones BasicStream.cpp uses.  [handle] is
    the raw stream handle; [read_count] is the [std::size_t] that
    [read_promise], a [Promise<std::size_t>], is resolved with;
    [read_callback] is empty when it is [nullptr]. *)
Record _State : Type := mk_State {
  handle : Z;
  read_count : Z;
  read_callback : option Callback;
  read_promise : Promise.t;
  idle_read_buffers : list Buffer;
  active_read_buffers : list Buffer
}.

Definition set_read_count (n : Z) (s : _State) : _State :=
  mk_State (handle s) n (read_callback s) (read_promise s)
           (idle_read_buffers s) (active_read_buffers s).

Definition set_read_callback (c : option Callback) (s : _State) : _State :=
  mk_State (handle s) (read_count s) c (read_promise s)
           (idle_read_buffers s) (active_read_buffers s).

Definition set_read_promise (p : Promise.t) (s : _State) : _State :=
  mk_State (handle s) (read_count s) (read_callback s) p
           (idle_read_buffers s) (active_read_buffers s).

Definition set_read_buffers (idle active : list Buffer) (s : _State)
  : _State :=
  mk_State (handle s) (read_count s) (read_callback s) (read_promise s)
           idle active.

(** A [Future<std::size_t>] handed to the caller names the promise whose
    slot it shares. *)
Inductive Future : Type :=
| read_future
| write_future (req : nat).

(** Calls that leave the stream. *)
Inductive Effect : Type :=
| uv_read_start (h : Z)
| uv_read_stop (h : Z)
| uv_write (h : Z) (buf : Uv.uv_buf_t)
| call_read_callback (cb : Callback) (view : Buffer)
| read_promise_resolve (v : Z)
| read_promise_reset.

(** The stream's shared state, the write requests the reactor holds, and
    the calls made so far (oldest first). *)
Record World : Type := mkWorld {
  m_state : _State;
  write_requests : list _details.WriteRequest;
  trace : list Effect
}.

(** *** The monad of member functions *)

Inductive Outcome (A : Type) : Type :=
| Normal (a : A)
| Thrown (e : Exception).
Arguments Normal {A} a.
Arguments Thrown {A} e.

Definition M (A : Type) : Type := World -> Outcome A * World.

Definition ret {A} (a : A) : M A := fun w => (Normal a, w).

Definition bind {A B} (m : M A) (k : A -> M B) : M B :=
  fun w =>
    match m w with
    | (Normal a, w') => k a w'
    | (Thrown e, w') => (Thrown e, w')
    end.

Definition throw {A} (e : Exception) : M A := fun w => (Thrown e, w).

Definition get : M _State := fun w => (Normal (m_state w), w).

Definition modify (f : _State -> _State) : M unit :=
  fun w => (Normal tt, mkWorld (f (m_state w)) (write_requests w) (trace w)).

Definition emit (e : Effect) : M unit :=
  fun w => (Normal tt, mkWorld (m_state w) (write_requests w) (trace w ++ [e])).

Declare Scope stream_scope.
Delimit Scope stream_scope with stream.
Notation "x <- m ;; k" := (bind m (fun x => k))
  (at level 61, m at next level, right associativity) : stream_scope.
Notation "m ;; k" := (bind m (fun _ => k))
  (at level 61, right associativity) : stream_scope.
Local Open Scope stream_scope.

Definition exec {A} (m : M A) (w : World) : World := snd (m w).
Definition result {A} (m : M A) (w : World) : Outcome A := fst (m w).

(** *** Construction *)

(** [std::make_shared<_State>()]: a pending promise and two empty lists;
    the scalar members are set by the constructor and by [state]. *)
Definition make_State (h : Z) : _State :=
  mk_State h 0 None (Promise.Plain Promise.pending) [] [].

(** [void BasicStream::state(const std::shared_ptr<_State>&)]. *)
Definition state (s : _State) : _State :=
  set_read_callback None (set_read_count 0 s).

(** [BasicStream::BasicStream(uv_stream_s* handle)]. *)
Definition BasicStream (h : Z) : World :=
  mkWorld (state (make_State h)) [] [].

(** *** The read-buffer pool *)

(** The loop of [_release_read_buffer]: the first buffer of the list whose
    [data()] is [base], and the list without it. *)
Fixpoint find_buffer (base : Z) (l : list Buffer)
  : option (Buffer * list Buffer) :=
  match l with
  | [] => None
  | b :: rest =>
      if data b =? base then Some (b, rest)
      else match find_buffer base rest with
           | Some (x, rest') => Some (x, b :: rest')
           | None => None
           end
  end.

(** [memory::Buffer& BasicStream::_next_read_buffer(void)].  [storage] is
    the address the allocator gives to [memory::Buffer(1024)] when the
    idle list is empty.  The front of the idle list (the new buffer when
    the list was empty) is spliced to the back of the active list and
    returned. *)
Definition _next_read_buffer (storage : Z) : M Buffer :=
  s <- get ;;
  let '(front, rest) :=
    match idle_read_buffers s with
    | [] => (mkBuffer storage 1024, [])
    | b :: l => (b, l)
    end in
  modify (set_read_buffers rest (active_read_buffers s ++ [front])) ;;
  ret front.

(** [void BasicStream::_release_read_buffer(const void* base)]. *)
Definition _release_read_buffer (base : Z) : M unit :=
  s <- get ;;
  match find_buffer base (active_read_buffers s) with
  | Some (b, rest) => modify (set_read_buffers (idle_read_buffers s ++ [b]) rest)
  | None => ret tt
  end.

(** *** The read path *)

(** [m_state->read_promise.resolve(v)] and [m_state->read_promise.reset()]:
    the call is recorded and the promise changes as [Promise] says. *)
Definition resolve_read_promise (v : Z) : M unit :=
  emit (read_promise_resolve v) ;;
  modify (fun s => set_read_promise (Promise.resolve v (read_promise s)) s).

Definition reset_read_promise : M unit :=
  emit read_promise_reset ;;
  modify (fun s => set_read_promise (Promise.reset (read_promise s)) s).

(** [void BasicStream::_stop_read(void)]. *)
Definition _stop_read : M unit :=
  s <- get ;;
  resolve_read_promise (read_count s) ;;
  reset_read_promise ;;
  modify (set_read_count 0).

(** [void BasicStream::stop_read(void)]; [res] is what [uv_read_stop]
    returns. *)
Definition stop_read (res : Z) : M unit :=
  s <- get ;;
  emit (uv_read_stop (handle s)) ;;
  modify (set_read_callback None) ;;
  if res <? 0 then throw (StreamError res)
  else _stop_read.

(** The allocation callback given to [uv_read_start]. *)
Definition alloc_cb (storage : Z) : M Uv.uv_buf_t :=
  buffer <- _next_read_buffer storage ;;
  ret (Uv.uv_buf_init (data buffer) (size buffer)).

(** The data callback given to [uv_read_start], called with [size] and the
    [base] of the buffer the reactor filled.  [kept] tells whether the
    consumer's callback kept a copy of the [buffer_ptr_t] it was given;
    when it did not, the view dies when the call returns and its deleter
    releases the buffer.  When [read_callback] is empty the call throws
    and the view dies during unwinding.  The [state.reset()] of the EOF
    branch drops the callback's own [shared_ptr] and leaves the [_State]
    as it is; so does building a [BasicStream] from the state, a handle
    that shares it. *)
Definition read_cb (size : Z) (base : Z) (kept : bool) : M unit :=
  if size =? Uv.UV_EOF then
    _stop_read
  else
    modify (fun s => set_read_count (Uv.to_size_t (read_count s + size)) s) ;;
    s <- get ;;
    match read_callback s with
    | Some callback =>
        emit (call_read_callback callback (mkBuffer base (Uv.to_size_t size))) ;;
        if kept then ret tt else _release_read_buffer base
    | None =>
        _release_read_buffer base ;;
        throw bad_function_call
    end.

(** The deleter of a view the consumer kept, run when the last copy of the
    [buffer_ptr_t] dies. *)
Definition view_deleter (base : Z) : M unit :=
  _release_read_buffer base.

(** [Future<std::size_t> BasicStream::_read(void)]; [res] is what
    [uv_read_start] returns. *)
Definition _read (res : Z) : M Future :=
  s <- get ;;
  emit (uv_read_start (handle s)) ;;
  if res <? 0 then
    modify (set_read_callback None) ;;
    throw (StreamError res)
  else
    ret read_future.

(** *** The write path *)

Definition add_request (r : _details.WriteRequest) : M nat :=
  fun w => (Normal (length (write_requests w)),
            mkWorld (m_state w) (write_requests w ++ [r]) (trace w)).

(** [Future<std::size_t> BasicStream::write(buffer_ptr_t buffer)]; [res]
    is what [uv_write] returns.  A request the reactor accepted stays
    alive in [write_requests]; the pass-through continuation is attached
    before control returns to the reactor. *)
Definition write (res : Z) (buffer : Buffer) : M Future :=
  let write_req :=
    _details.mkWriteRequest (Promise.Plain Promise.pending) (size buffer) in
  s <- get ;;
  emit (uv_write (handle s) (Uv.uv_buf_init (data buffer) (size buffer))) ;;
  if res <? 0 then throw (StreamError res)
  else
    req <- add_request
             (_details.mkWriteRequest
                (Promise.then_ (fun bytes_written => bytes_written)
                               (_details.promise write_req))
                (_details.size write_req)) ;;
    ret (write_future req).

(** The completion callback given to [uv_write], on the request it is
    called for. *)
Definition write_cb_request (status : Z) (write_req : _details.WriteRequest)
  : _details.WriteRequest :=
  if status <? 0 then
    _details.mkWriteRequest
      (Promise.reject (StreamError status) (_details.promise write_req))
      (_details.size write_req)
  else
    _details.mkWriteRequest
      (Promise.resolve (_details.size write_req) (_details.promise write_req))
      (_details.size write_req).

(** The list of requests with [f] applied to the request at index [n]. *)
Fixpoint update_request (n : nat)
         (f : _details.WriteRequest -> _details.WriteRequest)
         (l : list _details.WriteRequest) : list _details.WriteRequest :=
  match l, n with
  | [], _ => []
  | r :: rest, O => f r :: rest
  | r :: rest, S n' => r :: update_request n' f rest
  end.

(** The reactor reports the completion of request [req] with [status]. *)
Definition write_cb (req : nat) (status : Z) : M unit :=
  fun w => (Normal tt,
            mkWorld (m_state w)
                    (update_request req (write_cb_request status)
                                    (write_requests w))
                    (trace w)).

(** What a future shows to its holder. *)
Definition future_slot (f : Future) (w : World) : option Promise.Slot :=
  match f with
  | read_future => Some (Promise.state (read_promise (m_state w)))
  | write_future req =>
      match nth_error (write_requests w) req with
      | Some r => Some (Promise.outcome (_details.promise r))
      | None => None
      end
  end.

(** *** Runs of a stream *)

(** What can happen to a stream: the reactor calls one of the callbacks
    the stream registered, the consumer drops a view it kept, or the
    owner calls one of the member functions. *)
Inductive Event : Type :=
| on_alloc (storage : Z)
| on_read (size : Z) (base : Z) (kept : bool)
| on_view_dropped (base : Z)
| on_write_done (req : nat) (status : Z)
| do_read (res : Z)
| do_stop_read (res : Z)
| do_write (res : Z) (buffer : Buffer).

Definition step (e : Event) : M unit :=
  match e with
  | on_alloc storage => alloc_cb storage ;; ret tt
  | on_read size base kept => read_cb size base kept
  | on_view_dropped base => view_deleter base
  | on_write_done req status => write_cb req status
  | do_read res => _read res ;; ret tt
  | do_stop_read res => stop_read res
  | do_write res buffer => write res buffer ;; ret tt
  end.

(** The world after a sequence of events; an exception ends the call that
    raised it, not the stream. *)
Fixpoint run (es : list Event) (w : World) : World :=
  match es with
  | [] => w
  | e :: rest => run rest (exec (step e) w)
  end.

(** *** Vocabulary of the properties *)

(** The world with the two buffer lists replaced. *)
Definition with_buffers (w : World) (i a : list Buffer) : World :=
  mkWorld (set_read_buffers i a (m_state w)) (write_requests w) (trace w).

Definition idle (w : World) : list Buffer := idle_read_buffers (m_state w).
Definition active (w : World) : list Buffer := active_read_buffers (m_state w).

(** All the buffers of the pool. *)
Definition pool (w : World) : list Buffer := idle w ++ active w.

(** The number of times [b] occurs in the idle list and in the active
    list together. *)
Definition occurrences (b : Buffer) (w : World) : nat :=
  (count_occ Buffer_eq_dec (idle w) b + count_occ Buffer_eq_dec (active w) b)%nat.

(** No two buffers of the pool start at the same address. *)
Definition pool_distinct (w : World) : Prop := NoDup (map data (pool w)).

Definition has_address (a : Z) (l : list Buffer) : bool :=
  existsb (fun b => data b =? a) l.

(** The allocator is sound along a run: each time a buffer is allocated,
    its storage is not the storage of a buffer the pool still owns. *)
Fixpoint allocator_sound (es : list Event) (w : World) : bool :=
  match es with
  | [] => true
  | e :: rest =>
      match e with
      | on_alloc storage =>
          match idle w with
          | [] => negb (has_address storage (active w))
          | _ => true
          end
      | _ => true
      end && allocator_sound rest (exec (step e) w)
  end.

(** The buffers the allocation callback handed out along a run. *)
Fixpoint handed_out (es : list Event) (w : World) : list Buffer :=
  match es with
  | [] => []
  | e :: rest =>
      match e with
      | on_alloc storage =>
          match result (_next_read_buffer storage) w with
          | Normal b => [b]
          | Thrown _ => []
          end
      | _ => []
      end ++ handed_out rest (exec (step e) w)
  end.

(** The values [read_promise.resolve] was called with, oldest first. *)
Fixpoint resolutions (tr : list Effect) : list Z :=
  match tr with
  | [] => []
  | read_promise_resolve v :: rest => v :: resolutions rest
  | _ :: rest => resolutions rest
  end.

(** The bytes an event adds to the current read batch. *)
Definition chunk (e : Event) : Z :=
  match e with
  | on_read size _ _ => size
  | _ => 0
  end.

Definition total (es : list Event) : Z :=
  fold_right (fun e acc => chunk e + acc) 0 es.

(** Events of a running read batch: chunks of positive size, buffer
    traffic, writes, which share the stream with the read, and the calls
    that leave the batch open, [_read] and a [stop_read] that the reactor
    refuses. *)
Definition in_batch (e : Event) : bool :=
  match e with
  | on_read size _ _ => 0 <? size
  | on_alloc _ | on_view_dropped _ => true
  | on_write_done _ _ | do_write _ _ => true
  | do_read _ => true
  | do_stop_read res => res <? 0
  end.

(** Events that end a read batch: EOF given to the data callback, or a
    [stop_read] that the reactor accepts. *)
Definition ends_batch (e : Event) : bool :=
  match e with
  | on_read size _ _ => size =? Uv.UV_EOF
  | do_stop_read res => 0 <=? res
  | _ => false
  end.

(** How an event that allocates nothing can move the buffers of the pool. *)
Inductive PoolMove (i a : list Buffer) : list Buffer -> list Buffer -> Prop :=
| move_none : PoolMove i a i a
| move_reuse b rest : i = b :: rest -> PoolMove i a rest (a ++ [b])
| move_release base b rest :
    find_buffer base a = Some (b, rest) -> PoolMove i a (i ++ [b]) rest.

(** The part of the world the buffer calls leave alone. *)
Definition same_read_side (w w' : World) : Prop :=
  read_count (m_state w') = read_count (m_state w)
  /\ read_promise (m_state w') = read_promise (m_state w)
  /\ read_callback (m_state w') = read_callback (m_state w)
  /\ trace w' = trace w
  /\ write_requests w' = write_requests w.

(** The events of a run that do not report the completion of request
    [req]. *)
Definition not_completing (req : nat) (es : list Event) : bool :=
  forallb (fun e => match e with
                    | on_write_done r _ => negb (Nat.eqb r req)
                    | _ => true
                    end) es.

(** The request [write] hands to the reactor: the promise with the
    pass-through continuation attached, and the size of the buffer. *)
Definition submitted (buffer : Buffer) : _details.WriteRequest :=
  _details.mkWriteRequest
    (Promise.then_ (fun bytes_written => bytes_written)
                   (Promise.Plain Promise.pending))
    (size buffer).

(** The counter after one event of a running batch. *)
Definition count_after (e : Event) (n : Z) : Z :=
  match e with
  | on_read size _ _ => Uv.to_size_t (n + size)
  | _ => n
  end.

End BasicStream.

(* ------------------------------------------------------------------ *)
(** ** Events and emitters (lw/event/Emitter.hpp) *)

(** The class template [Event<EventArgs...>]: the listeners bound to one
    event, in the order they were added. *)
Module LwEvent.

(** [listener_type], a [std::function]: the event stores listeners and
    calls them, so a listener is known by a name.  A listener that is
    called does not reach back into the event that calls it. *)
Definition listener_type : Type := nat.

(** [m_listeners]. *)
Definition Event : Type := list listener_type.

(** One call of a listener with the arguments of the emission. *)
Inductive Call (Args : Type) : Type :=
| invoke (listener : listener_type) (args : Args).
Arguments invoke {Args} listener args.

Definition called {Args} (c : Call Args) : listener_type :=
  match c with invoke listener _ => listener end.

(** [emplace_back] and [push_back]: the listener goes to the back. *)
Definition emplace_back (listener : listener_type) (e : Event) : Event :=
  e ++ [listener].

Definition push_back (listener : listener_type) (e : Event) : Event :=
  e ++ [listener].

(** [operator()]: every listener is called with the arguments, first to
    last; the result is the calls made. *)
Definition call {Args} (args : Args) (e : Event) : list (Call Args) :=
  map (fun listener => invoke listener args) e.

(** [remove_if]: the listeners for which the predicate holds are removed.
    ([remove] needs an equality of listeners, which [std::function] does
    not have, and is left out.) *)
Definition remove_if (pred : listener_type -> bool) (e : Event) : Event :=
  filter (fun listener => negb (pred listener)) e.

Definition clear (e : Event) : Event := [].

Definition size (e : Event) : Z := Z.of_nat (length e).

Definition empty (e : Event) : bool :=
  match e with
  | [] => true
  | _ :: _ => false
  end.

End LwEvent.

(** The class template [Emitter<std::tuple<Events...>>]. *)
Module LwEmitter.

(** The type that identifies an event, [EventId]: a tag type per event,
    here a number per tag type. *)
Definition EventId : Type := nat.

(** [IdEvent<EventId(EventArgs...)>]: an event with its [event_id_type]. *)
Record IdEvent : Type := mkIdEvent {
  event_id_type : EventId;
  event : LwEvent.Event
}.

(** [event_types], the tuple of the events; [m_events] is one. *)
Definition event_types : Type := list IdEvent.

(** A new emitter: every event of the tuple without listeners. *)
Definition Emitter (ids : list EventId) : event_types :=
  map (fun id => mkIdEvent id []) ids.

(** [_details::event_index_impl<I, EventId, std::tuple<Event,
    OtherEvents...>>]: [I] when the first event has the id, else the index
    found among the other events from [I + 1]; no value for the empty
    tuple. *)
Fixpoint event_index_impl (I : nat) (id : EventId) (events : event_types)
  : option nat :=
  match events with
  | [] => None
  | e :: other_events =>
      if Nat.eqb id (event_id_type e) then Some I
      else event_index_impl (S I) id other_events
  end.

(** [_details::event_index<EventId, Events...>]. *)
Definition event_index (id : EventId) (events : event_types) : option nat :=
  event_index_impl 0 id events.

(** [_details::get_event<EventId, Events...>::from(events)]: the event at
    [event_index], read. *)
Definition from (id : EventId) (events : event_types)
  : option LwEvent.Event :=
  match event_index id events with
  | Some i => option_map event (nth_error events i)
  | None => None
  end.

(** The tuple with [f] applied to the event at index [i]. *)
Fixpoint alter (i : nat) (f : LwEvent.Event -> LwEvent.Event)
         (events : event_types) : event_types :=
  match events, i with
  | [], _ => []
  | e :: rest, O => mkIdEvent (event_id_type e) (f (event e)) :: rest
  | e :: rest, S i' => e :: alter i' f rest
  end.

(** [get_event<EventId, Events...>::from(m_events)], written through: [f]
    is applied to the event the reference denotes.  There is no result
    when no event of the tuple has the id (the C++ does not compile). *)
Definition through (id : EventId) (f : LwEvent.Event -> LwEvent.Event)
           (m_events : event_types) : option event_types :=
  match event_index id m_events with
  | Some i => Some (alter i f m_events)
  | None => None
  end.

(** Modelled from the spec: [trait::for_each(tuple, f)] (lw/trait.hpp is
    not part of the sources at hand) calls [f] on every element of the
    tuple once, first to last, as tests/trait/TupleTests.cpp checks.
    [for_each] is the form whose function updates what it captured by
    reference, [for_each_element] the form whose function updates the
    element it is given. *)
Definition for_each {A S : Type} (t : list A) (f : A -> S -> S) (s : S) : S :=
  fold_left (fun acc x => f x acc) t s.

Definition for_each_element {A : Type} (t : list A) (f : A -> A) : list A :=
  map f t.

(** [on], [emplace] and [insert]. *)
Definition on (id : EventId) (listener : LwEvent.listener_type)
           (m_events : event_types) : option event_types :=
  through id (LwEvent.emplace_back listener) m_events.

Definition emplace (id : EventId) (listener : LwEvent.listener_type)
           (m_events : event_types) : option event_types :=
  on id listener m_events.

Definition insert (id : EventId) (listener : LwEvent.listener_type)
           (m_events : event_types) : option event_types :=
  through id (LwEvent.push_back listener) m_events.

(** [remove_if(const EventId&, Pred&&)]. *)
Definition remove_if (id : EventId) (pred : LwEvent.listener_type -> bool)
           (m_events : event_types) : option event_types :=
  through id (LwEvent.remove_if pred) m_events.

(** [clear(const EventId&)] and [clear(void)]. *)
Definition clear_of (id : EventId) (m_events : event_types)
  : option event_types :=
  through id LwEvent.clear m_events.

Definition clear (m_events : event_types) : event_types :=
  for_each_element m_events
    (fun e => mkIdEvent (event_id_type e) (LwEvent.clear (event e))).

(** [empty(const EventId&)] and [empty(void)]. *)
Definition empty_of (id : EventId) (m_events : event_types) : option bool :=
  option_map LwEvent.empty (from id m_events).

Definition empty (m_events : event_types) : bool :=
  for_each m_events
    (fun e empty => empty && LwEvent.empty (event e)) true.

(** [size(const EventId&)] and [size(void)]; the sum is a [std::size_t]. *)
Definition size_of (id : EventId) (m_events : event_types) : option Z :=
  option_map LwEvent.size (from id m_events).

Definition size (m_events : event_types) : Z :=
  for_each m_events
    (fun e size => Uv.to_size_t (size + LwEvent.size (event e))) 0.

(** [emit]: the calls made. *)
Definition emit {Args} (id : EventId) (args : Args) (m_events : event_types)
  : option (list (LwEvent.Call Args)) :=
  option_map (LwEvent.call args) (from id m_events).

(** *** Vocabulary of the properties *)

(** What a user asks of an emitter, by event id. *)
Inductive Request : Type :=
| ask_on (id : EventId) (listener : LwEvent.listener_type)
| ask_insert (id : EventId) (listener : LwEvent.listener_type)
| ask_remove_if (id : EventId) (pred : LwEvent.listener_type -> bool)
| ask_clear (id : EventId).

Definition perform (r : Request) (m_events : event_types)
  : option event_types :=
  match r with
  | ask_on id listener => on id listener m_events
  | ask_insert id listener => insert id listener m_events
  | ask_remove_if id pred => remove_if id pred m_events
  | ask_clear id => clear_of id m_events
  end.

Fixpoint perform_all (rs : list Request) (m_events : event_types)
  : option event_types :=
  match rs with
  | [] => Some m_events
  | r :: rest =>
      match perform r m_events with
      | Some m' => perform_all rest m'
      | None => None
      end
  end.

(** Listeners added to events one after the other with [on]. *)
Definition register (regs : list (EventId * LwEvent.listener_type))
           (m_events : event_types) : option event_types :=
  perform_all (map (fun r => ask_on (fst r) (snd r)) regs) m_events.

(** The listeners a list of registrations gives to one event. *)
Definition registered (id : EventId)
           (regs : list (EventId * LwEvent.listener_type))
  : list LwEvent.listener_type :=
  map snd (filter (fun r => Nat.eqb id (fst r)) regs).

(** The number of listeners of all the events. *)
Definition listeners_total (m_events : event_types) : Z :=
  fold_right (fun e n => LwEvent.size (event e) + n) 0 m_events.

(** The ids of the events of the tuple. *)
Definition ids_of (m_events : event_types) : list EventId :=
  map event_id_type m_events.

End LwEmitter.

(* ------------------------------------------------------------------ *)
(** ** What a run of a stream does, event by event *)

Module Runs.

Import Memory BasicStream.

(** The calls an event adds to the trace. *)
Definition emitted (e : Event) (w : World) : list Effect :=
  let s := m_state w in
  match e with
  | on_alloc _ | on_view_dropped _ | on_write_done _ _ => []
  | on_read size base _ =>
      if size =? Uv.UV_EOF then
        [read_promise_resolve (read_count s); read_promise_reset]
      else
        match read_callback s with
        | Some callback =>
            [call_read_callback callback (mkBuffer base (Uv.to_size_t size))]
        | None => []
        end
  | do_read _ => [uv_read_start (handle s)]
  | do_stop_read res =>
      uv_read_stop (handle s)
      :: (if res <? 0 then []
          else [read_promise_resolve (read_count s); read_promise_reset])
  | do_write _ buffer =>
      [uv_write (handle s) (Uv.uv_buf_init (data buffer) (size buffer))]
  end.

(** The two buffer lists after [_next_read_buffer], whatever storage the
    allocator offers when it is asked. *)
Definition acquired (storage : Z) (i a : list Buffer)
  : list Buffer * list Buffer :=
  match i with
  | [] => ([], a ++ [mkBuffer storage 1024])
  | b :: rest => (rest, a ++ [b])
  end.

(** The two buffer lists after [_release_read_buffer]. *)
Definition released (base : Z) (i a : list Buffer)
  : list Buffer * list Buffer :=
  match find_buffer base a with
  | Some (b, rest) => (i ++ [b], rest)
  | None => (i, a)
  end.

(** The two buffer lists after an event. *)
Definition buffers_after (e : Event) (w : World)
  : list Buffer * list Buffer :=
  match e with
  | on_alloc storage => acquired storage (idle w) (active w)
  | on_read size base kept =>
      if size =? Uv.UV_EOF then (idle w, active w)
      else
        match read_callback (m_state w), kept with
        | Some _, true => (idle w, active w)
        | _, _ => released base (idle w) (active w)
        end
  | on_view_dropped base => released base (idle w) (active w)
  | _ => (idle w, active w)
  end.

(** The events that empty [read_callback]: every [stop_read], and a
    [_read] the reactor refuses. *)
Definition clears_callback (e : Event) : bool :=
  match e with
  | do_stop_read _ => true
  | do_read res => res <? 0
  | _ => false
  end.

(** The events that come from the reactor or from the consumer's views,
    as opposed to the calls of the stream's owner. *)
Definition is_callback (e : Event) : bool :=
  match e with
  | on_alloc _ | on_read _ _ _ | on_view_dropped _ | on_write_done _ _ => true
  | do_read _ | do_stop_read _ | do_write _ _ => false
  end.

(** The events of the write path, and those of the read path. *)
Definition writes (e : Event) : bool :=
  match e with
  | do_write _ _ | on_write_done _ _ => true
  | _ => false
  end.

(** The calls of a trace that reach the reactor. *)
Definition reaches_reactor (e : Effect) : bool :=
  match e with
  | uv_read_start _ | uv_read_stop _ | uv_write _ _ => true
  | _ => false
  end.

Definition reactor_calls (tr : list Effect) : list Effect :=
  filter reaches_reactor tr.

(** The number of [read_promise.reset()] calls of a trace. *)
Fixpoint resets (tr : list Effect) : nat :=
  match tr with
  | [] => O
  | read_promise_reset :: rest => S (resets rest)
  | _ :: rest => resets rest
  end.

(** The number of events of a run that end a read batch. *)
Definition endings (es : list Event) : nat :=
  length (filter ends_batch es).

(** The allocation callbacks of a run that find the idle list empty. *)
Fixpoint allocations (es : list Event) (w : World) : nat :=
  match es with
  | [] => O
  | e :: rest =>
      (match e, idle w with
       | on_alloc _, [] => 1
       | _, _ => 0
       end + allocations rest (exec (step e) w))%nat
  end.


End Runs.

(* ------------------------------------------------------------------ *)
(** * Properties *)

Import Memory BasicStream.
Local Open Scope stream_scope.

(** Unfolds one call down to the world it produces. *)
Ltac run_call :=
  unfold exec, result, step, stop_read, _stop_read, resolve_read_promise,
    reset_read_promise, _read, read_cb, view_deleter, alloc_cb, write,
    write_cb, add_request, _next_read_buffer, _release_read_buffer,
    bind, ret, throw, get, modify, emit;
  cbn [fst snd m_state write_requests trace handle read_count read_callback
       read_promise idle_read_buffers active_read_buffers
       set_read_count set_read_callback set_read_promise set_read_buffers].

Ltac by_sign res :=
  let H := fresh "Hsign" in
  destruct (res <? 0) eqn:H;
  [ apply Z.ltb_lt in H | apply Z.ltb_ge in H ].

(** ** Reading: start and stop *)

Section ReadControl.

Variable w : World.
Variable res : Z.

Lemma read_trace :
  trace (exec (_read res) w) = trace w ++ [uv_read_start (handle (m_state w))].
Proof. run_call. by_sign res; reflexivity. Qed.

Lemma stop_read_rejected :
  res < 0 ->
  stop_read res w =
    (Thrown (StreamError res),
     mkWorld (set_read_callback None (m_state w)) (write_requests w)
             (trace w ++ [uv_read_stop (handle (m_state w))])).
Proof.
  intros Hneg. run_call. by_sign res; [reflexivity | lia].
Qed.

Lemma stop_read_accepted :
  0 <= res ->
  stop_read res w =
    (Normal tt,
     mkWorld
       (set_read_count 0
          (set_read_promise
             (Promise.reset
                (Promise.resolve (read_count (m_state w))
                                 (read_promise (m_state w))))
             (set_read_callback None (m_state w))))
       (write_requests w)
       (trace w ++ [uv_read_stop (handle (m_state w));
                    read_promise_resolve (read_count (m_state w));
                    read_promise_reset])).
Proof.
  intros Hpos. run_call. by_sign res; [lia |].
  cbn. repeat rewrite <- app_assoc. reflexivity.
Qed.

End ReadControl.

Lemma resolutions_app (a b : list Effect) :
  resolutions (a ++ b) = resolutions a ++ resolutions b.
Proof.
  induction a as [| e a IH]; [reflexivity |].
  destruct e; cbn; rewrite ?IH; reflexivity.
Qed.

(** C8.  [_read]: when the reactor rejects the read-start request (negative
    status) the call throws a [StreamError] built from that status and the
    stream's [read_callback] is empty when it does; otherwise the call
    returns the future of the state's [read_promise] and leaves the state as
    it was.  Either way the request reached the reactor. *)
Theorem read_start_outcome (w : World) (res : Z) :
  trace (exec (_read res) w) = trace w ++ [uv_read_start (handle (m_state w))]
  /\ (res < 0 ->
      result (_read res) w = Thrown (StreamError res)
      /\ read_callback (m_state (exec (_read res) w)) = None)
  /\ (0 <= res ->
      result (_read res) w = Normal read_future
      /\ future_slot read_future (exec (_read res) w)
         = Some (Promise.state (read_promise (m_state w)))
      /\ m_state (exec (_read res) w) = m_state w).
Proof.
  split; [apply read_trace |].
  split; intros Hres; run_call; by_sign res; try lia; cbn; auto.
Qed.

Lemma read_start_outcome_witness :
  let w := BasicStream 5 in
  (-1 < 0
   /\ result (_read (-1)) w = Thrown (StreamError (-1))
   /\ read_callback (m_state (exec (_read (-1)) w)) = None)
  /\ (0 <= 0
      /\ result (_read 0) w = Normal read_future
      /\ future_slot read_future (exec (_read 0) w)
         = Some (Promise.state (read_promise (m_state w)))
      /\ m_state (exec (_read 0) w) = m_state w).
Proof.
  split; (split; [lia |]).
  - apply (proj1 (proj2 (read_start_outcome (BasicStream 5) (-1)))). lia.
  - apply (proj2 (proj2 (read_start_outcome (BasicStream 5) 0))). lia.
Defined.

(** C9.  [stop_read]: every call hands the stop request to the reactor and
    leaves [read_callback] empty; when the reactor answers with a negative
    status the call throws a [StreamError] built from it, and the callback
    is empty in that case too. *)
Theorem stop_read_propagates_and_clears (w : World) (res : Z) :
  (exists later,
      trace (exec (stop_read res) w)
      = trace w ++ uv_read_stop (handle (m_state w)) :: later)
  /\ read_callback (m_state (exec (stop_read res) w)) = None
  /\ (res < 0 ->
      result (stop_read res) w = Thrown (StreamError res)
      /\ read_callback (m_state (exec (stop_read res) w)) = None)
  /\ (0 <= res -> result (stop_read res) w = Normal tt).
Proof.
  unfold exec, result.
  by_sign res.
  - rewrite (stop_read_rejected w res Hsign). cbn.
    repeat split; try reflexivity; try lia.
    exists []. reflexivity.
  - rewrite (stop_read_accepted w res Hsign). cbn.
    repeat split; try reflexivity; try lia.
    eexists. reflexivity.
Qed.

Lemma stop_read_propagates_and_clears_witness :
  -9 < 0
  /\ result (stop_read (-9)) (BasicStream 5) = Thrown (StreamError (-9))
  /\ read_callback (m_state (exec (stop_read (-9)) (BasicStream 5))) = None.
Proof.
  split; [lia |].
  apply (proj1 (proj2 (proj2
           (stop_read_propagates_and_clears (BasicStream 5) (-9))))).
  lia.
Defined.

(** C10.  A [stop_read] that fails (negative status from the reactor)
    changes one field of the state, [read_callback], which becomes empty:
    [read_promise] is neither resolved nor reset and keeps its state,
    [read_count] and both buffer lists are as before, and so are the write
    requests.  The batch is finalized (promise resolved with the count, then
    reset, counter zeroed) on the success path, and only there. *)
Theorem stop_read_failure_frame (w : World) (res : Z) :
  (res < 0 ->
     m_state (exec (stop_read res) w) = set_read_callback None (m_state w)
     /\ read_promise (m_state (exec (stop_read res) w)) = read_promise (m_state w)
     /\ read_count (m_state (exec (stop_read res) w)) = read_count (m_state w)
     /\ idle (exec (stop_read res) w) = idle w
     /\ active (exec (stop_read res) w) = active w
     /\ write_requests (exec (stop_read res) w) = write_requests w
     /\ trace (exec (stop_read res) w)
        = trace w ++ [uv_read_stop (handle (m_state w))])
  /\ (0 <= res ->
      trace (exec (stop_read res) w)
      = trace w ++ [uv_read_stop (handle (m_state w));
                    read_promise_resolve (read_count (m_state w));
                    read_promise_reset]
      /\ read_count (m_state (exec (stop_read res) w)) = 0)
  /\ (resolutions (trace (exec (stop_read res) w)) <> resolutions (trace w)
      <-> 0 <= res).
Proof.
  unfold exec, idle, active.
  by_sign res.
  - rewrite (stop_read_rejected w res Hsign). cbn.
    split; [intros _; repeat split |].
    split; [lia |].
    rewrite resolutions_app, app_nil_r. split; [congruence | lia].
  - rewrite (stop_read_accepted w res Hsign). cbn.
    split; [lia |].
    split; [intros _; split; reflexivity |].
    split; [lia |]. intros _.
    rewrite resolutions_app. cbn.
    intros Heq. apply (f_equal (@length Z)) in Heq.
    rewrite length_app in Heq. cbn in Heq. lia.
Qed.

Lemma stop_read_failure_frame_witness :
  let w := mkWorld (mk_State 5 300 (Some 2%nat) (Promise.Plain Promise.pending)
                             [mkBuffer 4096 1024] [mkBuffer 8192 1024])
                   [] [] in
  -9 < 0
  /\ m_state (exec (stop_read (-9)) w) = set_read_callback None (m_state w)
  /\ read_promise (m_state (exec (stop_read (-9)) w)) = read_promise (m_state w)
  /\ read_count (m_state (exec (stop_read (-9)) w)) = read_count (m_state w)
  /\ idle (exec (stop_read (-9)) w) = idle w
  /\ active (exec (stop_read (-9)) w) = active w
  /\ write_requests (exec (stop_read (-9)) w) = write_requests w
  /\ trace (exec (stop_read (-9)) w)
     = trace w ++ [uv_read_stop (handle (m_state w))].
Proof.
  intros w. split; [lia |].
  apply (proj1 (stop_read_failure_frame w (-9))).
  lia.
Defined.

(** ** The data callback at the end of a stream and on errors *)

Lemma read_cb_eof (w : World) (base : Z) (kept : bool) :
  read_cb Uv.UV_EOF base kept w =
    (Normal tt,
     mkWorld
       (set_read_count 0
          (set_read_promise
             (Promise.reset
                (Promise.resolve (read_count (m_state w))
                                 (read_promise (m_state w))))
             (m_state w)))
       (write_requests w)
       (trace w ++ [read_promise_resolve (read_count (m_state w));
                    read_promise_reset])).
Proof.
  run_call. cbn. repeat rewrite <- app_assoc. reflexivity.
Qed.

Lemma stop_read_world (w : World) :
  snd (_stop_read w)
  = mkWorld
      (set_read_count 0
         (set_read_promise
            (Promise.reset
               (Promise.resolve (read_count (m_state w))
                                (read_promise (m_state w))))
            (m_state w)))
      (write_requests w)
      (trace w ++ [read_promise_resolve (read_count (m_state w));
                   read_promise_reset]).
Proof.
  run_call. cbn. repeat rewrite <- app_assoc. reflexivity.
Qed.

(** On EOF the data callback leaves [read_callback] as it finds it. *)
Lemma read_cb_eof_keeps_callback (w : World) (base : Z) (kept : bool) :
  read_callback (m_state (exec (read_cb Uv.UV_EOF base kept) w))
  = read_callback (m_state w).
Proof. unfold exec. rewrite read_cb_eof. reflexivity. Qed.

(** A size other than [UV_EOF], negative ones included, takes the data
    branch: the size is added to the counter modulo 2^64, the consumer's
    callback is called with a view of [to_size_t size] bytes, and neither
    the reactor nor the read promise is called. *)
Lemma read_cb_data (w : World) (size base : Z) (kept : bool) (cb : Callback) :
  size <> Uv.UV_EOF ->
  read_callback (m_state w) = Some cb ->
  let w' := exec (read_cb size base kept) w in
  result (read_cb size base kept) w = Normal tt
  /\ read_count (m_state w') = Uv.to_size_t (read_count (m_state w) + size)
  /\ read_promise (m_state w') = read_promise (m_state w)
  /\ read_callback (m_state w') = Some cb
  /\ trace w' = trace w ++ [call_read_callback cb (mkBuffer base (Uv.to_size_t size))].
Proof.
  intros Hsize Hcb. run_call.
  destruct (size =? Uv.UV_EOF) eqn:E; [apply Z.eqb_eq in E; contradiction |].
  cbn. rewrite Hcb. cbn.
  destruct kept; cbn.
  - repeat split; auto.
  - destruct (find_buffer base (active_read_buffers (m_state w)))
      as [[b rest] |]; cbn; repeat split; auto.
Qed.

(** C3.  The data callback called with [UV_ECONNRESET] (-104), a negative
    size that is not [UV_EOF], on a stream that is reading with 10 bytes
    counted: the call takes the data branch.  The counter becomes
    2^64 - 94, the consumer's callback receives a view of 2^64 - 104
    bytes, the buffer goes back to the idle list, and the read promise is
    neither resolved nor rejected: the batch is not finalized and no stop
    reaches the reactor. *)
Theorem read_error_taken_as_data :
  read_cb (-104) 4096 false
          (mkWorld (mk_State 5 10 (Some 7%nat) (Promise.Plain Promise.pending)
                             [] [mkBuffer 4096 1024])
                   [] [])
  = (Normal tt,
     mkWorld (mk_State 5 (2 ^ 64 - 94) (Some 7%nat)
                       (Promise.Plain Promise.pending)
                       [mkBuffer 4096 1024] [])
             []
             [call_read_callback 7%nat (mkBuffer 4096 (2 ^ 64 - 104))]).
Proof. vm_compute. reflexivity. Qed.

(** C4.  The data callback called with [UV_EOF] on a stream that is reading
    with callback 7: the batch is finalized (promise resolved with the 10
    bytes counted and reset, counter zeroed) and [read_callback] still
    holds callback 7 afterwards, where [stop_read] on the same stream
    leaves it empty. *)
Theorem eof_leaves_read_callback :
  let w := mkWorld (mk_State 5 10 (Some 7%nat) (Promise.Plain Promise.pending)
                             [mkBuffer 4096 1024] [])
                   [] [] in
  read_cb Uv.UV_EOF 4096 false w
  = (Normal tt,
     mkWorld (mk_State 5 0 (Some 7%nat) (Promise.Plain Promise.pending)
                       [mkBuffer 4096 1024] [])
             []
             [read_promise_resolve 10; read_promise_reset])
  /\ read_callback (m_state (exec (read_cb Uv.UV_EOF 4096 false) w)) = Some 7%nat
  /\ read_callback (m_state (exec (stop_read 0) w)) = None.
Proof. vm_compute. repeat split. Qed.

(* ------------------------------------------------------------------ *)
(** ** The read-buffer pool *)

Section PoolCalls.

Variable w : World.

Lemma next_read_buffer_reuse (storage : Z) (b : Buffer) (rest : list Buffer) :
  idle w = b :: rest ->
  _next_read_buffer storage w = (Normal b, with_buffers w rest (active w ++ [b])).
Proof.
  unfold idle, active, with_buffers. intros Hidle.
  run_call. rewrite Hidle. reflexivity.
Qed.

Lemma next_read_buffer_alloc (storage : Z) :
  idle w = [] ->
  _next_read_buffer storage w
  = (Normal (mkBuffer storage 1024),
     with_buffers w [] (active w ++ [mkBuffer storage 1024])).
Proof.
  unfold idle, active, with_buffers. intros Hidle.
  run_call. rewrite Hidle. reflexivity.
Qed.

Lemma release_read_buffer_found (base : Z) (b : Buffer) (rest : list Buffer) :
  find_buffer base (active w) = Some (b, rest) ->
  _release_read_buffer base w = (Normal tt, with_buffers w (idle w ++ [b]) rest).
Proof.
  unfold idle, active, with_buffers. intros Hfind.
  run_call. rewrite Hfind. reflexivity.
Qed.

Lemma release_read_buffer_missing (base : Z) :
  find_buffer base (active w) = None ->
  _release_read_buffer base w = (Normal tt, w).
Proof.
  unfold active. intros Hfind.
  run_call. rewrite Hfind. reflexivity.
Qed.

End PoolCalls.

Lemma find_buffer_none (base : Z) (l : list Buffer) :
  find_buffer base l = None <-> has_address base l = false.
Proof.
  unfold has_address.
  induction l as [| b l IH]; cbn; [tauto |].
  destruct (data b =? base); cbn; [split; discriminate |].
  destruct (find_buffer base l) as [[x rest] |].
  - split; [discriminate |]. intros H. apply IH in H. discriminate.
  - split; [intros _; apply IH; reflexivity | reflexivity].
Qed.

Lemma find_buffer_some (base : Z) (l : list Buffer) (b : Buffer)
      (rest : list Buffer) :
  find_buffer base l = Some (b, rest) ->
  data b = base /\ Permutation l (b :: rest).
Proof.
  revert b rest.
  induction l as [| x l IH]; intros b rest; cbn; [discriminate |].
  destruct (data x =? base) eqn:E.
  - intros H. injection H as <- <-. apply Z.eqb_eq in E. auto.
  - destruct (find_buffer base l) as [[y rest'] |]; [| discriminate].
    intros H. injection H as <- <-.
    destruct (IH y rest' eq_refl) as [Hd Hp].
    split; [exact Hd |].
    rewrite Hp. apply perm_swap.
Qed.

Lemma release_read_buffer_moves (w : World) (base : Z) :
  PoolMove (idle w) (active w)
           (idle (exec (_release_read_buffer base) w))
           (active (exec (_release_read_buffer base) w)).
Proof.
  unfold exec. destruct (find_buffer base (active w)) as [[b rest] |] eqn:Hfind.
  - rewrite (release_read_buffer_found w base b rest Hfind). cbn.
    now apply move_release with (base := base).
  - rewrite (release_read_buffer_missing w base Hfind). apply move_none.
Qed.

Lemma has_address_false (a : Z) (l : list Buffer) :
  has_address a l = false <-> ~ In a (map data l).
Proof.
  unfold has_address.
  induction l as [| b l IH]; cbn; [tauto |].
  rewrite orb_false_iff, IH, Z.eqb_neq. tauto.
Qed.

Lemma PoolMove_pool (i a i' a' : list Buffer) :
  PoolMove i a i' a' -> Permutation (i' ++ a') (i ++ a).
Proof.
  intros [| b rest -> | base b rest Hfind].
  - reflexivity.
  - cbn. rewrite app_assoc. symmetry. apply Permutation_cons_append.
  - apply find_buffer_some in Hfind as [_ Hperm].
    rewrite Hperm, <- app_assoc. cbn. reflexivity.
Qed.

(** The allocation callback on an empty idle list: the new buffer goes to
    the back of the active list. *)
Lemma step_alloc_new (storage : Z) (w : World) :
  idle w = [] ->
  exec (step (on_alloc storage)) w
  = with_buffers w [] (active w ++ [mkBuffer storage 1024]).
Proof.
  intros Hidle. unfold exec, step, alloc_cb, bind, ret.
  rewrite (next_read_buffer_alloc w storage Hidle). reflexivity.
Qed.

(** Every other event moves the buffers as a reuse or a release does, or
    not at all. *)
Lemma step_moves (e : Event) (w : World) :
  (forall storage, e = on_alloc storage -> idle w <> []) ->
  PoolMove (idle w) (active w) (idle (exec (step e) w)) (active (exec (step e) w)).
Proof.
  intros Hreuse.
  destruct e as [storage | size base kept | base | req status | res | res
                 | res buffer].
  - (* on_alloc *)
    destruct (idle w) as [| b rest] eqn:Hidle.
    { now destruct (Hreuse storage eq_refl). }
    unfold exec, step, alloc_cb, bind, ret.
    rewrite (next_read_buffer_reuse w storage b rest Hidle). cbn.
    now apply move_reuse.
  - (* on_read *)
    cbn [step]. unfold read_cb.
    destruct (size =? Uv.UV_EOF).
    + unfold exec. rewrite stop_read_world. apply move_none.
    + unfold exec, bind, modify, get, emit, ret, throw.
      cbn [fst snd m_state].
      destruct (read_callback _) as [cb |]; [destruct kept |].
      * apply move_none.
      * match goal with
        | |- context [_release_read_buffer base ?W] =>
            exact (release_read_buffer_moves W base)
        end.
      * match goal with
        | |- context [_release_read_buffer base ?W] =>
            pose proof (release_read_buffer_moves W base) as H
        end.
        unfold exec in H. revert H.
        destruct (_release_read_buffer base _) as [[[] | ex] w1];
          exact (fun H => H).
  - (* on_view_dropped *)
    apply release_read_buffer_moves.
  - apply move_none.
  - unfold exec, step, _read, bind, get, emit, modify, throw, ret.
    cbn [fst snd m_state]. destruct (res <? 0); apply move_none.
  - unfold exec. by_sign res; cbn [step].
    + rewrite (stop_read_rejected w res Hsign). apply move_none.
    + rewrite (stop_read_accepted w res Hsign). apply move_none.
  - unfold exec, step, write, add_request, bind, get, emit, modify, throw, ret.
    cbn [fst snd m_state]. destruct (res <? 0); apply move_none.
Qed.

Lemma step_permutes (e : Event) (w : World) :
  (forall storage, e = on_alloc storage -> idle w <> []) ->
  Permutation (pool w) (pool (exec (step e) w)).
Proof.
  intros Hreuse. symmetry.
  apply PoolMove_pool, step_moves, Hreuse.
Qed.

(** One event keeps every buffer of the pool in the pool. *)
Lemma step_keeps_buffers (e : Event) (w : World) (b : Buffer) :
  In b (pool w) -> In b (pool (exec (step e) w)).
Proof.
  intros Hin.
  destruct (idle w) as [| b0 rest] eqn:Hidle;
    destruct e as [storage | | | | | |];
    try (apply (Permutation_in b (l := pool w)); [| exact Hin];
         apply step_permutes; intros ? ?; rewrite ?Hidle; discriminate).
  rewrite (step_alloc_new storage w Hidle).
  unfold pool, idle, active in *. cbn. rewrite Hidle in Hin. cbn in Hin.
  apply in_or_app. auto.
Qed.

Lemma run_keeps_buffers (es : list Event) (w : World) (b : Buffer) :
  In b (pool w) -> In b (pool (run es w)).
Proof.
  revert w. induction es as [| e es IH]; intros w Hin; cbn; [exact Hin |].
  apply IH, step_keeps_buffers, Hin.
Qed.

(** One event keeps the addresses of the pool distinct, when the allocator
    is sound for it. *)
Lemma step_keeps_distinct (e : Event) (w : World) :
  pool_distinct w ->
  allocator_sound [e] w = true ->
  pool_distinct (exec (step e) w).
Proof.
  unfold pool_distinct. intros Hnd Hsound.
  assert (Hperm :
    (forall storage, e = on_alloc storage -> idle w <> []) ->
    NoDup (map data (pool (exec (step e) w)))).
  { intros Hreuse.
    apply (Permutation_NoDup
             (Permutation_map data (step_permutes e w Hreuse))).
    exact Hnd. }
  destruct e as [storage | | | | | |];
    try (apply Hperm; intros ? ?; discriminate).
  destruct (idle w) as [| b0 rest] eqn:Hidle.
  - rewrite (step_alloc_new storage w Hidle).
    cbn in Hsound. rewrite Hidle in Hsound.
    rewrite andb_true_r in Hsound. apply negb_true_iff in Hsound.
    apply has_address_false in Hsound.
    unfold pool, idle, active in *. cbn. rewrite Hidle in Hnd. cbn in Hnd.
    rewrite map_app. cbn.
    apply (Permutation_NoDup (Permutation_cons_append _ _)).
    constructor; assumption.
  - apply Hperm. intros ? _. discriminate.
Qed.

Lemma run_keeps_distinct (es : list Event) (w : World) :
  pool_distinct w ->
  allocator_sound es w = true ->
  pool_distinct (run es w).
Proof.
  revert w. induction es as [| e es IH]; intros w Hnd Hsound; [exact Hnd |].
  cbn [run]. cbn [allocator_sound] in Hsound.
  apply andb_true_iff in Hsound as [Hhere Hrest].
  apply IH; [| exact Hrest].
  apply step_keeps_distinct; [exact Hnd |].
  cbn [allocator_sound]. rewrite Hhere. reflexivity.
Qed.

(** A buffer the allocation callback handed out is in the pool from then
    on. *)
Lemma handed_out_in_pool (es : list Event) (w : World) (b : Buffer) :
  In b (handed_out es w) -> In b (pool (run es w)).
Proof.
  revert w. induction es as [| e es IH]; intros w; cbn [handed_out run];
    [intros [] |].
  intros Hin. apply in_app_or in Hin as [Hnow | Hlater]; [| now apply IH].
  apply run_keeps_buffers.
  destruct e as [storage | | | | | |]; try contradiction.
  unfold result in Hnow. unfold exec, step, alloc_cb, bind, ret.
  destruct (idle w) as [| b0 rest] eqn:Hidle.
  - rewrite (next_read_buffer_alloc w storage Hidle) in *.
    cbn in Hnow. destruct Hnow as [<- | []].
    unfold pool, idle, active. cbn [snd with_buffers m_state set_read_buffers
      idle_read_buffers active_read_buffers].
    rewrite !in_app_iff. cbn. auto.
  - rewrite (next_read_buffer_reuse w storage b0 rest Hidle) in *.
    cbn in Hnow. destruct Hnow as [<- | []].
    unfold pool, idle, active. cbn [snd with_buffers m_state set_read_buffers
      idle_read_buffers active_read_buffers].
    rewrite !in_app_iff. cbn. auto.
Qed.

Lemma distinct_once (w : World) (b : Buffer) :
  pool_distinct w -> In b (pool w) -> occurrences b w = 1%nat.
Proof.
  unfold pool_distinct, occurrences, pool. intros Hnd Hin.
  apply NoDup_map_inv in Hnd.
  rewrite <- count_occ_app.
  apply (proj1 (NoDup_count_occ' Buffer_eq_dec _) Hnd b Hin).
Qed.

(** C2.  Buffer pool conservation.  Along every sequence of events of a
    stream, acquires ([_next_read_buffer], through the allocation callback)
    and releases ([_release_read_buffer], through a dying view) among them,
    and with an allocator that never hands out storage the pool still owns:
    the buffers of the pool keep distinct addresses; every buffer that was
    in the pool at the start, or was handed out on the way, or is in the
    pool at the end, occurs exactly once in the idle and active lists taken
    together; and a release whose address is the address of no active buffer
    returns normally and leaves the whole world, both lists included, as it
    was. *)
Theorem pool_conservation (es : list Event) (w : World) :
  pool_distinct w ->
  allocator_sound es w = true ->
  pool_distinct (run es w)
  /\ (forall b,
        In b (pool w) \/ In b (handed_out es w) \/ In b (pool (run es w)) ->
        occurrences b (run es w) = 1%nat)
  /\ (forall base,
        has_address base (active (run es w)) = false ->
        _release_read_buffer base (run es w) = (Normal tt, run es w)).
Proof.
  intros Hnd Hsound.
  pose proof (run_keeps_distinct es w Hnd Hsound) as Hnd'.
  split; [exact Hnd' |]. split.
  - intros b [Hin | [Hin | Hin]]; apply distinct_once; trivial.
    + now apply run_keeps_buffers.
    + now apply handed_out_in_pool.
  - intros base Hmiss.
    apply release_read_buffer_missing, find_buffer_none, Hmiss.
Qed.

Lemma pool_conservation_witness :
  let w := BasicStream 5 in
  let es := [on_alloc 4096; on_alloc 8192; on_view_dropped 4096;
             on_read 100 8192 false; on_alloc 12288; on_view_dropped 77] in
  pool_distinct w
  /\ allocator_sound es w = true
  /\ pool_distinct (run es w)
  /\ (forall b,
        In b (pool w) \/ In b (handed_out es w) \/ In b (pool (run es w)) ->
        occurrences b (run es w) = 1%nat)
  /\ (forall base,
        has_address base (active (run es w)) = false ->
        _release_read_buffer base (run es w) = (Normal tt, run es w)).
Proof.
  intros w es.
  assert (Hnd : pool_distinct w) by (vm_compute; constructor).
  assert (Hsound : allocator_sound es w = true) by (vm_compute; reflexivity).
  split; [exact Hnd |]. split; [exact Hsound |].
  exact (pool_conservation es w Hnd Hsound).
Defined.

(** C7.  The pool scenario.  On a new stream both lists are empty.  Two
    acquires, for which the allocator gives the storage [a1] and then other
    storage [a2], return two distinct new buffers of 1024 bytes; both are
    then active and none is idle.  Releasing the address of the first moves
    that buffer, and only it, to the idle list.  A third acquire returns
    that same buffer and allocates nothing: the pool holds the same two
    buffers, both active. *)
Theorem pool_scenario (h a1 a2 a3 : Z) :
  a1 <> a2 ->
  let b1 := mkBuffer a1 1024 in
  let b2 := mkBuffer a2 1024 in
  let w0 := BasicStream h in
  let w1 := exec (_next_read_buffer a1) w0 in
  let w2 := exec (_next_read_buffer a2) w1 in
  let w3 := exec (_release_read_buffer a1) w2 in
  let w4 := exec (_next_read_buffer a3) w3 in
  idle w0 = [] /\ active w0 = []
  /\ result (_next_read_buffer a1) w0 = Normal b1
  /\ result (_next_read_buffer a2) w1 = Normal b2
  /\ b1 <> b2
  /\ idle w2 = [] /\ active w2 = [b1; b2]
  /\ idle w3 = [b1] /\ active w3 = [b2]
  /\ result (_next_read_buffer a3) w3 = Normal b1
  /\ idle w4 = [] /\ active w4 = [b2; b1].
Proof.
  intros Hneq b1 b2 w0 w1 w2 w3 w4.
  assert (H3 : w3 = with_buffers w0 [b1] [b2]).
  { subst w3 w2 w1 w0 b1 b2.
    unfold exec, _release_read_buffer, _next_read_buffer, bind, get, modify,
      ret, BasicStream, with_buffers.
    cbn. rewrite Z.eqb_refl. reflexivity. }
  assert (H4 : _next_read_buffer a3 w3 = (Normal b1, with_buffers w0 [] [b2; b1])).
  { rewrite H3. reflexivity. }
  subst w4. unfold exec, result. rewrite H4. rewrite H3.
  repeat split; try reflexivity.
  intros Heq. apply Hneq. injection Heq as E. exact E.
Qed.

Lemma pool_scenario_witness :
  4096 <> 8192
  /\ (let b1 := mkBuffer 4096 1024 in
      let b2 := mkBuffer 8192 1024 in
      let w0 := BasicStream 5 in
      let w1 := exec (_next_read_buffer 4096) w0 in
      let w2 := exec (_next_read_buffer 8192) w1 in
      let w3 := exec (_release_read_buffer 4096) w2 in
      let w4 := exec (_next_read_buffer 12288) w3 in
      idle w0 = [] /\ active w0 = []
      /\ result (_next_read_buffer 4096) w0 = Normal b1
      /\ result (_next_read_buffer 8192) w1 = Normal b2
      /\ b1 <> b2
      /\ idle w2 = [] /\ active w2 = [b1; b2]
      /\ idle w3 = [b1] /\ active w3 = [b2]
      /\ result (_next_read_buffer 12288) w3 = Normal b1
      /\ idle w4 = [] /\ active w4 = [b2; b1]).
Proof.
  assert (Hneq : 4096 <> 8192) by lia.
  split; [exact Hneq |].
  exact (pool_scenario 5 4096 8192 12288 Hneq).
Defined.

(* ------------------------------------------------------------------ *)
(** ** Read accumulation *)

Lemma release_read_buffer_frame (w : World) (base : Z) :
  result (_release_read_buffer base) w = Normal tt
  /\ same_read_side w (exec (_release_read_buffer base) w).
Proof.
  unfold result, exec, same_read_side.
  destruct (find_buffer base (active w)) as [[b rest] |] eqn:Hfind.
  - rewrite (release_read_buffer_found w base b rest Hfind). cbn. auto 6.
  - rewrite (release_read_buffer_missing w base Hfind). cbn. auto 6.
Qed.

Lemma next_read_buffer_frame (w : World) (storage : Z) :
  same_read_side w (exec (_next_read_buffer storage) w).
Proof.
  unfold exec, same_read_side.
  destruct (idle w) as [| b rest] eqn:Hidle.
  - rewrite (next_read_buffer_alloc w storage Hidle). cbn. auto 6.
  - rewrite (next_read_buffer_reuse w storage b rest Hidle). cbn. auto 6.
Qed.

(** An event of a running batch counts its chunk and calls neither
    [resolve] nor [reset] on the read promise. *)
Lemma step_in_batch (e : Event) (w : World) :
  in_batch e = true ->
  read_count (m_state (exec (step e) w)) = count_after e (read_count (m_state w))
  /\ read_promise (m_state (exec (step e) w)) = read_promise (m_state w)
  /\ resolutions (trace (exec (step e) w)) = resolutions (trace w).
Proof.
  destruct e as [storage | size base kept | base | req status | res | res
                 | res buffer]; cbn [in_batch count_after]; intros Hin.
  - (* on_alloc *)
    destruct (next_read_buffer_frame w storage) as (Hc & Hp & _ & Ht & _).
    unfold exec, step, alloc_cb, bind, ret in *.
    destruct (_next_read_buffer storage w) as [[b | ex] w1]; cbn in *;
      rewrite Hc, Hp, Ht; auto.
  - (* on_read *)
    apply Z.ltb_lt in Hin.
    cbn [step]. unfold read_cb.
    destruct (size =? Uv.UV_EOF) eqn:E;
      [apply Z.eqb_eq in E; unfold Uv.UV_EOF in E; lia |].
    unfold exec, bind, modify, get, emit, ret, throw.
    cbn [fst snd m_state].
    destruct (read_callback _) as [cb |]; [destruct kept |].
    + cbn. rewrite resolutions_app, app_nil_r. auto.
    + match goal with
      | |- context [_release_read_buffer base ?W] =>
          destruct (release_read_buffer_frame W base) as (_ & Hc & Hp & _ & Ht & _)
      end.
      unfold exec in *. rewrite Hc, Hp, Ht. cbn.
      rewrite resolutions_app, app_nil_r. auto.
    + match goal with
      | |- context [_release_read_buffer base ?W] =>
          destruct (release_read_buffer_frame W base) as (_ & Hc & Hp & _ & Ht & _)
      end.
      unfold exec in *.
      destruct (_release_read_buffer base _) as [[[] | ex] w1]; cbn in *;
        rewrite Hc, Hp, Ht; auto.
  - (* on_view_dropped *)
    destruct (release_read_buffer_frame w base) as (_ & Hc & Hp & _ & Ht & _).
    cbn [step]. unfold view_deleter. rewrite Hc, Hp, Ht. auto.
  - (* on_write_done *)
    cbn. auto.
  - (* do_read *)
    unfold exec, step, _read, bind, get, emit, modify, throw, ret.
    cbn [fst snd m_state].
    destruct (res <? 0); cbn; rewrite resolutions_app, app_nil_r; auto.
  - (* do_stop_read, refused *)
    apply Z.ltb_lt in Hin.
    unfold exec. cbn [step]. rewrite (stop_read_rejected w res Hin). cbn.
    rewrite resolutions_app, app_nil_r. auto.
  - (* do_write *)
    unfold exec, step, write, add_request, bind, get, emit, modify, throw, ret.
    cbn [fst snd m_state].
    destruct (res <? 0); cbn; rewrite resolutions_app, app_nil_r; auto.
Qed.

Lemma to_size_t_range (z : Z) : 0 <= Uv.to_size_t z < 2 ^ 64.
Proof. unfold Uv.to_size_t. apply Z.mod_pos_bound. lia. Qed.

Lemma to_size_t_small (z : Z) : 0 <= z < 2 ^ 64 -> Uv.to_size_t z = z.
Proof. unfold Uv.to_size_t. apply Z.mod_small. Qed.

Lemma to_size_t_add (a b : Z) :
  Uv.to_size_t (Uv.to_size_t a + b) = Uv.to_size_t (a + b).
Proof. unfold Uv.to_size_t. apply Zplus_mod_idemp_l. Qed.

Lemma total_nonneg (es : list Event) :
  forallb in_batch es = true -> 0 <= total es.
Proof.
  induction es as [| e es IH]; cbn; [lia |].
  intros H. apply andb_true_iff in H as [He Hes]. specialize (IH Hes).
  fold (total es).
  destruct e; cbn in *; lia.
Qed.

(** A running batch: the counter is the sum of its chunks modulo 2^64, and
    the read promise is not touched. *)
Lemma run_in_batch (es : list Event) (w : World) :
  forallb in_batch es = true ->
  0 <= read_count (m_state w) < 2 ^ 64 ->
  read_count (m_state (run es w))
  = Uv.to_size_t (read_count (m_state w) + total es)
  /\ read_promise (m_state (run es w)) = read_promise (m_state w)
  /\ resolutions (trace (run es w)) = resolutions (trace w).
Proof.
  revert w. induction es as [| e es IH]; intros w Hall Hrange.
  - cbn. rewrite Z.add_0_r, to_size_t_small by exact Hrange. auto.
  - cbn [forallb] in Hall. apply andb_true_iff in Hall as [He Hes].
    destruct (step_in_batch e w He) as (Hc & Hp & Ht).
    cbn [run].
    assert (Hrange' : 0 <= read_count (m_state (exec (step e) w)) < 2 ^ 64).
    { rewrite Hc. destruct e; cbn [count_after]; auto using to_size_t_range. }
    destruct (IH _ Hes Hrange') as (Hc' & Hp' & Ht').
    rewrite Hc', Hp', Ht', Hc, Hp, Ht.
    repeat split. cbn [total fold_right]. fold (total es).
    destruct e; cbn [count_after chunk];
      rewrite ?to_size_t_add; f_equal; lia.
Qed.

(** The end of a batch: the promise is resolved with the counter and reset,
    and the counter is zero. *)
Lemma step_ends_batch (e : Event) (w : World) :
  ends_batch e = true ->
  result (step e) w = Normal tt
  /\ read_count (m_state (exec (step e) w)) = 0
  /\ read_promise (m_state (exec (step e) w))
     = Promise.reset (Promise.resolve (read_count (m_state w))
                                      (read_promise (m_state w)))
  /\ resolutions (trace (exec (step e) w))
     = resolutions (trace w) ++ [read_count (m_state w)].
Proof.
  destruct e as [storage | size base kept | base | req status | res | res
                 | res buffer]; cbn [ends_batch]; intros Hend;
    try discriminate.
  - apply Z.eqb_eq in Hend. subst size.
    unfold result, exec. cbn [step]. rewrite read_cb_eof. cbn.
    rewrite resolutions_app. auto.
  - apply Z.leb_le in Hend.
    unfold result, exec. cbn [step]. rewrite (stop_read_accepted w res Hend).
    cbn. rewrite resolutions_app. auto.
Qed.

Lemma run_app (es es' : list Event) (w : World) :
  run (es ++ es') w = run es' (run es w).
Proof.
  revert w. induction es as [| e es IH]; intros w; cbn; [reflexivity |].
  apply IH.
Qed.

(** A whole batch, from a counter within [std::size_t]. *)
Lemma run_batch (es : list Event) (fin : Event) (w : World) :
  forallb in_batch es = true ->
  ends_batch fin = true ->
  0 <= read_count (m_state w) < 2 ^ 64 ->
  read_count (m_state (run (es ++ [fin]) w)) = 0
  /\ read_promise (m_state (run (es ++ [fin]) w))
     = Promise.reset
         (Promise.resolve (Uv.to_size_t (read_count (m_state w) + total es))
                          (read_promise (m_state w)))
  /\ resolutions (trace (run (es ++ [fin]) w))
     = resolutions (trace w)
         ++ [Uv.to_size_t (read_count (m_state w) + total es)].
Proof.
  intros Hes Hfin Hrange.
  rewrite run_app. cbn [run].
  destruct (run_in_batch es w Hes Hrange) as (Hc & Hp & Ht).
  destruct (step_ends_batch fin (run es w) Hfin) as (_ & Hc' & Hp' & Ht').
  rewrite Hc', Hp', Ht', Hc, Hp, Ht. auto.
Qed.

Lemma resolve_pending (v : Z) (p : Promise.t) :
  Promise.state p = Promise.pending ->
  Promise.state (Promise.resolve v p) = Promise.resolved v.
Proof. destruct p as [s | s f next]; cbn; intros ->; reflexivity. Qed.

(** C1, amended.  A read batch that starts with the counter at zero, runs
    through data-ready calls of positive sizes s1, ..., sk (and any buffer
    traffic, write, [_read] or refused [stop_read] between them), and ends
    by EOF given to the data callback or by a [stop_read] the reactor
    accepts: the ending call returns normally and calls
    [read_promise.resolve] once, with (s1 + ... + sk) mod 2^64, which is
    s1 + ... + sk itself when that sum is below 2^64; a pending promise
    shows that value to its future until the reset that follows;
    [read_count] is zero afterwards.  A second batch on the same stream
    resolves with the sum of its own chunks modulo 2^64, whatever the first
    one counted. *)
Theorem read_accumulation (w : World) (es : list Event) (fin : Event)
        (es' : list Event) (fin' : Event) :
  read_count (m_state w) = 0 ->
  forallb in_batch es = true -> ends_batch fin = true ->
  forallb in_batch es' = true -> ends_batch fin' = true ->
  let w1 := run (es ++ [fin]) w in
  let w2 := run (es' ++ [fin']) w1 in
  result (step fin) (run es w) = Normal tt
  /\ resolutions (trace w1) = resolutions (trace w) ++ [total es mod 2 ^ 64]
  /\ (total es < 2 ^ 64 ->
      resolutions (trace w1) = resolutions (trace w) ++ [total es])
  /\ (Promise.state (read_promise (m_state w)) = Promise.pending ->
      Promise.state (Promise.resolve (total es mod 2 ^ 64)
                                     (read_promise (m_state w)))
      = Promise.resolved (total es mod 2 ^ 64))
  /\ read_promise (m_state w1)
     = Promise.reset (Promise.resolve (total es mod 2 ^ 64)
                                      (read_promise (m_state w)))
  /\ read_count (m_state w1) = 0
  /\ resolutions (trace w2) = resolutions (trace w1) ++ [total es' mod 2 ^ 64].
Proof.
  intros Hzero Hes Hfin Hes' Hfin' w1 w2.
  assert (Hrange : 0 <= read_count (m_state w) < 2 ^ 64) by (rewrite Hzero; lia).
  destruct (run_batch es fin w Hes Hfin Hrange) as (Hc & Hp & Ht).
  rewrite Hzero, Z.add_0_l in Hp, Ht. unfold Uv.to_size_t in Hp, Ht.
  fold w1 in Hc, Hp, Ht.
  assert (Hrange' : 0 <= read_count (m_state w1) < 2 ^ 64) by (rewrite Hc; lia).
  destruct (run_batch es' fin' w1 Hes' Hfin' Hrange') as (_ & _ & Ht').
  rewrite Hc, Z.add_0_l in Ht'. unfold Uv.to_size_t in Ht'. fold w2 in Ht'.
  split; [apply step_ends_batch, Hfin |].
  split; [exact Ht |]. split.
  { intros Hfits. rewrite Ht, Z.mod_small; [reflexivity |].
    split; [apply total_nonneg, Hes | exact Hfits]. }
  split; [apply resolve_pending |].
  auto.
Qed.

Lemma read_accumulation_witness :
  let w := mkWorld (mk_State 5 0 (Some 7%nat) (Promise.Plain Promise.pending)
                             [] []) [] [] in
  let es := [on_alloc 4096; on_read 100 4096 false;
             on_alloc 8192; on_read 24 4096 true; on_view_dropped 4096] in
  let fin := on_read Uv.UV_EOF 0 false in
  let es' := [on_alloc 4096; on_read 7 4096 false] in
  let fin' := do_stop_read 0 in
  let w1 := run (es ++ [fin]) w in
  let w2 := run (es' ++ [fin']) w1 in
  (read_count (m_state w) = 0
   /\ forallb in_batch es = true /\ ends_batch fin = true
   /\ forallb in_batch es' = true /\ ends_batch fin' = true)
  /\ result (step fin) (run es w) = Normal tt
  /\ resolutions (trace w1) = resolutions (trace w) ++ [total es mod 2 ^ 64]
  /\ (total es < 2 ^ 64 ->
      resolutions (trace w1) = resolutions (trace w) ++ [total es])
  /\ (Promise.state (read_promise (m_state w)) = Promise.pending ->
      Promise.state (Promise.resolve (total es mod 2 ^ 64)
                                     (read_promise (m_state w)))
      = Promise.resolved (total es mod 2 ^ 64))
  /\ read_promise (m_state w1)
     = Promise.reset (Promise.resolve (total es mod 2 ^ 64)
                                      (read_promise (m_state w)))
  /\ read_count (m_state w1) = 0
  /\ resolutions (trace w2) = resolutions (trace w1) ++ [total es' mod 2 ^ 64].
Proof.
  intros w es fin es' fin' w1 w2.
  split; [repeat split |].
  exact (read_accumulation w es fin es' fin'
           eq_refl eq_refl eq_refl eq_refl eq_refl).
Defined.

(** C1 as stated fails where the sum leaves [std::size_t]: three chunks of
    2^63 - 1, 2^63 - 1 and 2 bytes add up to 2^64, and at EOF the read
    promise is resolved with 0. *)
Lemma read_accumulation_wraps :
  let w := mkWorld (mk_State 5 0 (Some 7%nat) (Promise.Plain Promise.pending)
                             [] []) [] [] in
  let es := [on_read (2 ^ 63 - 1) 4096 false; on_read (2 ^ 63 - 1) 4096 false;
             on_read 2 4096 false] in
  let fin := on_read Uv.UV_EOF 0 false in
  read_count (m_state w) = 0
  /\ forallb in_batch es = true
  /\ ends_batch fin = true
  /\ total es = 2 ^ 64
  /\ resolutions (trace (run (es ++ [fin]) w)) = [0]
  /\ resolutions (trace (run (es ++ [fin]) w)) <> [total es].
Proof.
  vm_compute. repeat split; discriminate.
Qed.

(** The same wrap-around with chunks no larger than a pool buffer: 2^54
    chunks of 1024 bytes add up to 2^64, and the batch resolves with 0. *)
Lemma total_repeat (e : Event) (n : nat) :
  total (repeat e n) = Z.of_nat n * chunk e.
Proof.
  induction n as [| n IH]; [reflexivity |].
  cbn [repeat total fold_right]. fold (total (repeat e n)). rewrite IH. lia.
Qed.

Lemma in_batch_repeat (e : Event) (n : nat) :
  in_batch e = true -> forallb in_batch (repeat e n) = true.
Proof.
  intros He. induction n as [| n IH]; [reflexivity |].
  cbn [repeat forallb]. rewrite He, IH. reflexivity.
Qed.

Lemma read_accumulation_wraps_at_buffer_size (n : nat) (w : World) :
  Z.of_nat n = 2 ^ 54 ->
  read_count (m_state w) = 0 ->
  total (repeat (on_read 1024 4096 false) n) = 2 ^ 64
  /\ resolutions
       (trace (run (repeat (on_read 1024 4096 false) n
                      ++ [on_read Uv.UV_EOF 0 false]) w))
     = resolutions (trace w) ++ [0].
Proof.
  intros Hn Hzero.
  assert (Htotal : total (repeat (on_read 1024 4096 false) n) = 2 ^ 64).
  { rewrite total_repeat, Hn. reflexivity. }
  split; [exact Htotal |].
  destruct (run_batch (repeat (on_read 1024 4096 false) n)
                      (on_read Uv.UV_EOF 0 false) w) as (_ & _ & Ht).
  - apply in_batch_repeat. reflexivity.
  - reflexivity.
  - rewrite Hzero. lia.
  - rewrite Ht, Hzero, Htotal. reflexivity.
Qed.

(* ------------------------------------------------------------------ *)
(** ** The write path *)

Section WriteCall.

Variable w : World.
Variable res : Z.
Variable buffer : Buffer.

Lemma write_rejected :
  res < 0 ->
  write res buffer w
  = (Thrown (StreamError res),
     mkWorld (m_state w) (write_requests w)
             (trace w ++ [uv_write (handle (m_state w))
                                   (Uv.uv_buf_init (data buffer) (size buffer))])).
Proof.
  intros Hneg. run_call. by_sign res; [reflexivity | lia].
Qed.

Lemma write_accepted :
  0 <= res ->
  write res buffer w
  = (Normal (write_future (length (write_requests w))),
     mkWorld (m_state w) (write_requests w ++ [submitted buffer])
             (trace w ++ [uv_write (handle (m_state w))
                                   (Uv.uv_buf_init (data buffer) (size buffer))])).
Proof.
  intros Hpos. run_call. by_sign res; [lia | reflexivity].
Qed.

End WriteCall.

Lemma nth_error_update_request_same (l : list _details.WriteRequest)
      (n : nat) (f : _details.WriteRequest -> _details.WriteRequest)
      (r : _details.WriteRequest) :
  nth_error l n = Some r ->
  nth_error (update_request n f l) n = Some (f r).
Proof.
  revert n. induction l as [| x l IH]; intros [| n]; cbn; try discriminate.
  - intros H. injection H as ->. reflexivity.
  - apply IH.
Qed.

Lemma nth_error_update_request_other (l : list _details.WriteRequest)
      (n m : nat) (f : _details.WriteRequest -> _details.WriteRequest) :
  n <> m ->
  nth_error (update_request n f l) m = nth_error l m.
Proof.
  revert n m. induction l as [| x l IH]; intros [| n] [| m] Hneq; cbn;
    try reflexivity; try congruence.
  apply IH. congruence.
Qed.

(** What one event does to the write requests the reactor holds. *)
Lemma step_write_requests (e : Event) (w : World) :
  write_requests (exec (step e) w)
  = match e with
    | on_write_done req status =>
        update_request req (write_cb_request status) (write_requests w)
    | do_write res buffer =>
        if res <? 0 then write_requests w
        else write_requests w ++ [submitted buffer]
    | _ => write_requests w
    end.
Proof.
  destruct e as [storage | size base kept | base | req status | res | res
                 | res buffer].
  - destruct (next_read_buffer_frame w storage) as (_ & _ & _ & _ & Hw).
    unfold exec, step, alloc_cb, bind, ret in *.
    destruct (_next_read_buffer storage w) as [[b | ex] w1]; exact Hw.
  - cbn [step]. unfold read_cb.
    destruct (size =? Uv.UV_EOF).
    + unfold exec. rewrite stop_read_world. reflexivity.
    + unfold exec, bind, modify, get, emit, ret, throw.
      cbn [fst snd m_state].
      destruct (read_callback _) as [cb |]; [destruct kept |].
      * reflexivity.
      * match goal with
        | |- context [_release_read_buffer base ?W] =>
            destruct (release_read_buffer_frame W base) as (_ & _ & _ & _ & _ & Hw)
        end.
        exact Hw.
      * match goal with
        | |- context [_release_read_buffer base ?W] =>
            destruct (release_read_buffer_frame W base) as (_ & _ & _ & _ & _ & Hw)
        end.
        unfold exec in Hw.
        destruct (_release_read_buffer base _) as [[[] | ex] w1]; exact Hw.
  - destruct (release_read_buffer_frame w base) as (_ & _ & _ & _ & _ & Hw).
    exact Hw.
  - reflexivity.
  - unfold exec, step, _read, bind, get, emit, modify, throw, ret.
    cbn [fst snd m_state]. destruct (res <? 0); reflexivity.
  - unfold exec. by_sign res; cbn [step].
    + rewrite (stop_read_rejected w res Hsign). reflexivity.
    + rewrite (stop_read_accepted w res Hsign). reflexivity.
  - unfold exec. cbn [step]. unfold bind, ret. by_sign res.
    + rewrite (write_rejected w res buffer Hsign). reflexivity.
    + rewrite (write_accepted w res buffer Hsign). reflexivity.
Qed.

(** A request stays as it is until the reactor reports its completion. *)
Lemma run_keeps_request (es : list Event) (w : World) (req : nat)
      (r : _details.WriteRequest) :
  not_completing req es = true ->
  nth_error (write_requests w) req = Some r ->
  nth_error (write_requests (run es w)) req = Some r.
Proof.
  unfold not_completing.
  revert w. induction es as [| e es IH]; intros w Hes Hreq; [exact Hreq |].
  cbn [forallb] in Hes. apply andb_true_iff in Hes as [He Hes].
  cbn [run]. apply IH; [exact Hes |].
  rewrite step_write_requests.
  destruct e as [| | | r' status | | | res' buffer']; try exact Hreq.
  - apply negb_true_iff, Nat.eqb_neq in He.
    rewrite nth_error_update_request_other by exact He. exact Hreq.
  - destruct (res' <? 0); [exact Hreq |].
    rewrite nth_error_app1; [exact Hreq |].
    apply nth_error_Some. congruence.
Qed.

(** The completion callback on a request as [write] submitted it. *)
Lemma completion_of_submitted (buffer : Buffer) (status : Z) :
  Promise.outcome (_details.promise (write_cb_request status (submitted buffer)))
  = if status <? 0 then Promise.rejected (StreamError status)
    else Promise.resolved (size buffer).
Proof.
  unfold write_cb_request, submitted. destruct (status <? 0); reflexivity.
Qed.

(** A write the reactor accepted, followed by events that do not complete
    it, and then by its completion with [status]. *)
Lemma write_then_completion (w : World) (res status : Z) (buffer : Buffer)
      (es : list Event) :
  0 <= res ->
  not_completing (length (write_requests w)) es = true ->
  result (write res buffer) w = Normal (write_future (length (write_requests w)))
  /\ future_slot (write_future (length (write_requests w)))
                 (run es (exec (write res buffer) w))
     = Some Promise.pending
  /\ future_slot (write_future (length (write_requests w)))
                 (exec (write_cb (length (write_requests w)) status)
                       (run es (exec (write res buffer) w)))
     = Some (if status <? 0 then Promise.rejected (StreamError status)
             else Promise.resolved (size buffer)).
Proof.
  intros Hres Hes.
  unfold result, exec. rewrite (write_accepted w res buffer Hres).
  cbn [fst snd].
  set (w1 := mkWorld _ _ _).
  assert (Hreq : nth_error (write_requests (run es w1))
                           (length (write_requests w))
                 = Some (submitted buffer)).
  { apply run_keeps_request; [exact Hes |].
    subst w1. cbn. rewrite nth_error_app2, Nat.sub_diag by lia. reflexivity. }
  split; [reflexivity |]. split.
  - cbn [future_slot]. rewrite Hreq. reflexivity.
  - cbn [future_slot]. unfold write_cb. cbn [snd write_requests].
    rewrite (nth_error_update_request_same _ _ _ _ Hreq).
    rewrite completion_of_submitted. reflexivity.
Qed.

(** C5.  Write round-trip.  When the reactor accepts the submission of
    [write(buffer)] (non-negative status) the call returns a future; that
    future is pending until the reactor reports the completion of the
    request, whatever else happens to the stream in between, and when the
    completion comes with status 0 the future is resolved with the size the
    buffer had at the call. *)
Theorem write_round_trip (w : World) (res : Z) (buffer : Buffer)
        (es : list Event) :
  0 <= res ->
  not_completing (length (write_requests w)) es = true ->
  exists fut,
    result (write res buffer) w = Normal fut
    /\ future_slot fut (run es (exec (write res buffer) w)) = Some Promise.pending
    /\ future_slot fut
         (exec (write_cb (length (write_requests w)) 0)
               (run es (exec (write res buffer) w)))
       = Some (Promise.resolved (size buffer)).
Proof.
  intros Hres Hes.
  exists (write_future (length (write_requests w))).
  exact (write_then_completion w res 0 buffer es Hres Hes).
Qed.

Lemma write_round_trip_witness :
  let w := BasicStream 5 in
  let buffer := mkBuffer 4096 11 in
  let es := [do_write 0 (mkBuffer 8192 20); on_write_done 1 0; do_read 0;
             on_alloc 12288; on_read 3 12288 false] in
  0 <= 0
  /\ not_completing (length (write_requests w)) es = true
  /\ exists fut,
      result (write 0 buffer) w = Normal fut
      /\ future_slot fut (run es (exec (write 0 buffer) w)) = Some Promise.pending
      /\ future_slot fut
           (exec (write_cb (length (write_requests w)) 0)
                 (run es (exec (write 0 buffer) w)))
         = Some (Promise.resolved (size buffer)).
Proof.
  intros w buffer es.
  assert (Hres : 0 <= 0) by lia.
  split; [exact Hres |]. split; [reflexivity |].
  exact (write_round_trip w 0 buffer es Hres eq_refl).
Defined.

(** C6.  Write failure.  When the reactor answers the submission with a
    negative status, [write] throws a [StreamError] built from it: no
    future is returned and no request is left with the reactor.  When the
    submission is accepted and the completion is later reported with a
    negative status, the future [write] returned is rejected with a
    [StreamError] built from that status. *)
Theorem write_failure (w : World) (res status : Z) (buffer : Buffer)
        (es : list Event) :
  (res < 0 ->
   result (write res buffer) w = Thrown (StreamError res)
   /\ write_requests (exec (write res buffer) w) = write_requests w
   /\ m_state (exec (write res buffer) w) = m_state w)
  /\ (0 <= res -> status < 0 ->
      not_completing (length (write_requests w)) es = true ->
      exists fut,
        result (write res buffer) w = Normal fut
        /\ future_slot fut
             (exec (write_cb (length (write_requests w)) status)
                   (run es (exec (write res buffer) w)))
           = Some (Promise.rejected (StreamError status))).
Proof.
  split.
  - intros Hres. unfold result, exec.
    rewrite (write_rejected w res buffer Hres). auto.
  - intros Hres Hstatus Hes.
    exists (write_future (length (write_requests w))).
    destruct (write_then_completion w res status buffer es Hres Hes)
      as (Hret & _ & Hdone).
    split; [exact Hret |].
    rewrite Hdone. apply Z.ltb_lt in Hstatus. rewrite Hstatus. reflexivity.
Qed.

Lemma write_failure_witness :
  let w := BasicStream 5 in
  let buffer := mkBuffer 4096 11 in
  let es := [do_write 0 (mkBuffer 8192 20); on_write_done 1 0] in
  (-32 < 0
   /\ result (write (-32) buffer) w = Thrown (StreamError (-32))
   /\ write_requests (exec (write (-32) buffer) w) = write_requests w
   /\ m_state (exec (write (-32) buffer) w) = m_state w)
  /\ (0 <= 0 /\ -104 < 0
      /\ not_completing (length (write_requests w)) es = true
      /\ exists fut,
          result (write 0 buffer) w = Normal fut
          /\ future_slot fut
               (exec (write_cb (length (write_requests w)) (-104))
                     (run es (exec (write 0 buffer) w)))
             = Some (Promise.rejected (StreamError (-104)))).
Proof.
  intros w buffer es.
  assert (H1 : -32 < 0) by lia.
  assert (H2 : 0 <= 0) by lia.
  assert (H3 : -104 < 0) by lia.
  split.
  - split; [exact H1 |].
    exact (proj1 (write_failure w (-32) 0 buffer []) H1).
  - split; [exact H2 |]. split; [exact H3 |]. split; [reflexivity |].
    exact (proj2 (write_failure w 0 (-104) buffer es) H2 H3 eq_refl).
Defined.

(* ------------------------------------------------------------------ *)
(** ** Every event, field by field *)

Import Runs.

(** Splits a goal about one event on everything the event's code tests. *)
Ltac by_event e w :=
  destruct w as [[h rc cb p i a] reqs tr];
  destruct e as [storage | size base kept | base | req status | res | res
                 | res buffer];
  unfold emitted, buffers_after, acquired, released, clears_callback,
    idle, active;
  run_call;
  try destruct (size =? Uv.UV_EOF) eqn:Heof;
  try destruct (res <? 0) eqn:Hres;
  try destruct cb as [callback |];
  try destruct kept;
  try destruct i as [| front others];
  cbn;
  try destruct (find_buffer base a) as [[found rest] |] eqn:Hfind;
  cbn.

Lemma step_trace (e : Event) (w : World) :
  trace (exec (step e) w) = trace w ++ emitted e w.
Proof.
  by_event e w; rewrite <- ?app_assoc, ?app_nil_r; reflexivity.
Qed.

Lemma step_buffers (e : Event) (w : World) :
  (idle (exec (step e) w), active (exec (step e) w)) = buffers_after e w.
Proof. by_event e w; reflexivity. Qed.

Lemma step_read_callback (e : Event) (w : World) :
  read_callback (m_state (exec (step e) w))
  = if clears_callback e then None else read_callback (m_state w).
Proof. by_event e w; reflexivity. Qed.

Lemma step_handle (e : Event) (w : World) :
  handle (m_state (exec (step e) w)) = handle (m_state w).
Proof. by_event e w; reflexivity. Qed.


Lemma idle_after (e : Event) (w : World) :
  idle (exec (step e) w) = fst (buffers_after e w).
Proof. rewrite <- step_buffers. reflexivity. Qed.

Lemma active_after (e : Event) (w : World) :
  active (exec (step e) w) = snd (buffers_after e w).
Proof. rewrite <- step_buffers. reflexivity. Qed.

(* ------------------------------------------------------------------ *)
(** ** The buffer pool in use *)

Lemma find_buffer_last (b : Buffer) (l : list Buffer) :
  ~ In (data b) (map data l) ->
  find_buffer (data b) (l ++ [b]) = Some (b, l).
Proof.
  induction l as [| x l IH]; cbn; intros Hnot.
  - rewrite Z.eqb_refl. reflexivity.
  - destruct (data x =? data b) eqn:E.
    + apply Z.eqb_eq in E. tauto.
    + rewrite IH by tauto. reflexivity.
Qed.

(** X1.  Acquire, then release what was acquired.  In a pool whose buffers
    have distinct addresses, and with an allocator that offers storage the
    pool does not own, [_next_read_buffer] returns the front of the idle
    list (a new 1024-byte buffer when the list is empty) and puts it at the
    back of the active list; releasing the address of that buffer restores
    the active list and leaves the buffer at the back of the idle list. *)
Theorem acquire_release_round_trip (w : World) (storage : Z) :
  pool_distinct w ->
  allocator_sound [on_alloc storage] w = true ->
  let b := hd (mkBuffer storage 1024) (idle w) in
  let w1 := exec (_next_read_buffer storage) w in
  let w2 := exec (_release_read_buffer (data b)) w1 in
  result (_next_read_buffer storage) w = Normal b
  /\ idle w1 = tl (idle w)
  /\ active w1 = active w ++ [b]
  /\ idle w2 = tl (idle w) ++ [b]
  /\ active w2 = active w.
Proof.
  intros Hnd Hsound b w1 w2.
  assert (Hfresh : ~ In (data b) (map data (active w))).
  { subst b. unfold pool_distinct, pool in Hnd.
    cbn in Hsound. destruct (idle w) as [| front others] eqn:Hidle; cbn.
    - rewrite andb_true_r in Hsound. apply negb_true_iff in Hsound.
      apply has_address_false, Hsound.
    - cbn in Hnd. apply NoDup_cons_iff in Hnd as [Hnot _].
      rewrite map_app, in_app_iff in Hnot. tauto. }
  assert (Hw1 : _next_read_buffer storage w
                = (Normal b, with_buffers w (tl (idle w)) (active w ++ [b]))).
  { subst b. destruct (idle w) as [| front others] eqn:Hidle.
    - apply next_read_buffer_alloc, Hidle.
    - apply next_read_buffer_reuse, Hidle. }
  assert (Hw2 : _release_read_buffer (data b) w1
                = (Normal tt, with_buffers w1 (idle w1 ++ [b]) (active w))).
  { apply release_read_buffer_found.
    subst w1. unfold exec. rewrite Hw1. cbn.
    apply find_buffer_last, Hfresh. }
  subst w2. unfold result, exec in *. rewrite Hw2. subst w1.
  rewrite Hw1. cbn. auto.
Qed.

Lemma acquire_release_round_trip_witness :
  let w := with_buffers (BasicStream 5)
             [mkBuffer 4096 1024; mkBuffer 8192 1024] [mkBuffer 12288 1024] in
  let b := hd (mkBuffer 0 1024) (idle w) in
  let w1 := exec (_next_read_buffer 0) w in
  let w2 := exec (_release_read_buffer (data b)) w1 in
  (pool_distinct w /\ allocator_sound [on_alloc 0] w = true)
  /\ result (_next_read_buffer 0) w = Normal b
  /\ idle w1 = tl (idle w)
  /\ active w1 = active w ++ [b]
  /\ idle w2 = tl (idle w) ++ [b]
  /\ active w2 = active w.
Proof.
  intros w b w1 w2.
  assert (Hnd : pool_distinct w).
  { unfold pool_distinct. cbn.
    repeat (constructor; [cbn; intuition lia |]). constructor. }
  split; [split; [exact Hnd | reflexivity] |].
  exact (acquire_release_round_trip w 0 Hnd eq_refl).
Defined.

Lemma step_keeps_sizes (e : Event) (w : World) :
  Forall (fun b => size b = 1024) (pool w) ->
  Forall (fun b => size b = 1024) (pool (exec (step e) w)).
Proof.
  intros Hall.
  destruct (idle w) as [| front others] eqn:Hidle;
    destruct e as [storage | | | | | |];
    try (apply (Permutation_Forall (x := pool w)); [| exact Hall];
         apply step_permutes; intros ? ?; rewrite ?Hidle; discriminate).
  rewrite (step_alloc_new storage w Hidle).
  unfold pool, idle, active in *. cbn. rewrite Hidle in Hall. cbn in Hall.
  apply Forall_app. split; [exact Hall |]. constructor; [reflexivity | constructor].
Qed.

Lemma run_keeps_sizes (es : list Event) (w : World) :
  Forall (fun b => size b = 1024) (pool w) ->
  Forall (fun b => size b = 1024) (pool (run es w)).
Proof.
  revert w. induction es as [| e es IH]; intros w Hall; [exact Hall |].
  cbn [run]. apply IH, step_keeps_sizes, Hall.
Qed.

(** X2.  Every buffer of the pool is 1024 bytes long.  After any run of a
    new stream all idle and active buffers have size 1024, and the
    allocation callback gives the reactor a [uv_buf_t] of length 1024 that
    starts where a buffer now at the back of the active list starts. *)
Theorem pool_buffers_are_1024 (h : Z) (es : list Event) (storage : Z) :
  let w := run es (BasicStream h) in
  Forall (fun b => size b = 1024) (pool w)
  /\ exists b,
      result (alloc_cb storage) w = Normal (Uv.mk_buf (data b) 1024)
      /\ active (exec (alloc_cb storage) w) = active w ++ [b].
Proof.
  intros w.
  assert (Hall : Forall (fun b => size b = 1024) (pool w)).
  { apply run_keeps_sizes. constructor. }
  split; [exact Hall |].
  exists (hd (mkBuffer storage 1024) (idle w)).
  unfold result, exec, alloc_cb, bind, ret.
  destruct (idle w) as [| front others] eqn:Hidle.
  - rewrite (next_read_buffer_alloc w storage Hidle). cbn. auto.
  - rewrite (next_read_buffer_reuse w storage front others Hidle). cbn.
    assert (Hsize : size front = 1024).
    { unfold pool in Hall. rewrite Hidle in Hall. now inversion Hall. }
    rewrite Hsize. auto.
Qed.

Lemma allocations_bound (es : list Event) (w : World) :
  (allocations es w <= length (handed_out es w))%nat.
Proof.
  revert w. induction es as [| e es IH]; intros w; cbn [allocations handed_out];
    [constructor |].
  rewrite length_app. specialize (IH (exec (step e) w)).
  destruct e as [storage | | | | | |]; cbn [length]; try lia.
  unfold result.
  destruct (idle w) as [| front others] eqn:Hidle.
  - rewrite (next_read_buffer_alloc w storage Hidle). cbn [fst length]. lia.
  - lia.
Qed.

Lemma pool_length_run (es : list Event) (w : World) :
  length (pool (run es w)) = (length (pool w) + allocations es w)%nat.
Proof.
  revert w. induction es as [| e es IH]; intros w; cbn [run allocations];
    [lia |].
  rewrite IH.
  assert (Hstep : length (pool (exec (step e) w))
                  = (length (pool w)
                     + match e, idle w with
                       | on_alloc _, [] => 1
                       | _, _ => 0
                       end)%nat).
  { destruct (idle w) as [| front others] eqn:Hidle;
      destruct e as [storage | | | | | |];
      try (rewrite Nat.add_0_r; symmetry; apply Permutation_length,
           step_permutes; intros ? ?; rewrite ?Hidle; discriminate).
    rewrite (step_alloc_new storage w Hidle).
    unfold pool, idle, active in *. cbn. rewrite Hidle. cbn.
    rewrite length_app. cbn. reflexivity. }
  rewrite Hstep. lia.
Qed.

(** X3.  The pool only grows, and only on demand.  Over any run the number
    of buffers in the pool grows by exactly the number of allocation
    callbacks that found the idle list empty, which is at most the number
    of buffers handed out: no event removes a buffer, and a buffer is
    allocated only when none is idle. *)
Theorem pool_grows_on_demand (es : list Event) (w : World) :
  length (pool (run es w)) = (length (pool w) + allocations es w)%nat
  /\ (allocations es w <= length (handed_out es w))%nat.
Proof.
  split; [apply pool_length_run | apply allocations_bound].
Qed.





(** X5.  EOF does not give the buffer back.  When the reactor asks for a
    buffer and then reports EOF, the buffer handed out for that call stays
    at the back of the active list, whatever its address and whether or
    not a callback is set: the data callback releases a buffer on the data
    branch only. *)
Theorem eof_keeps_buffer_active (w : World) (storage base : Z) (kept : bool) :
  let b := hd (mkBuffer storage 1024) (idle w) in
  let w' := run [on_alloc storage; on_read Uv.UV_EOF base kept] w in
  idle w' = tl (idle w) /\ active w' = active w ++ [b].
Proof.
  intros b w'. subst w' b. cbn [run].
  rewrite idle_after, active_after. cbn [buffers_after].
  rewrite Z.eqb_refl. cbn [fst snd].
  rewrite idle_after, active_after. cbn [buffers_after].
  destruct (idle w); auto.
Qed.

(* ------------------------------------------------------------------ *)
(** ** What the callbacks and the calls do to the rest of the stream *)

Lemma run_trace_step (P : list Effect -> list Effect -> Prop) :
  (forall tr, P tr tr) ->
  (forall a b c, P a b -> P b c -> P a c) ->
  forall (ok : Event -> bool),
    (forall e w, ok e = true -> P (trace w) (trace (exec (step e) w))) ->
    forall es w, forallb ok es = true -> P (trace w) (trace (run es w)).
Proof.
  intros Hrefl Htrans ok Hstep es.
  induction es as [| e es IH]; intros w Hall; [apply Hrefl |].
  cbn [forallb] in Hall. apply andb_true_iff in Hall as [He Hes].
  cbn [run]. eapply Htrans; [apply Hstep, He | apply IH, Hes].
Qed.

Lemma reactor_calls_app (a b : list Effect) :
  reactor_calls (a ++ b) = reactor_calls a ++ reactor_calls b.
Proof. apply filter_app. Qed.

(** X6.  The callbacks never call the reactor.  Over any run made of
    callbacks only (allocation, data, dying views, write completion) the
    calls that reached the reactor are the ones made before: in particular
    EOF, or an error size, given to the data callback does not make the
    stream call [uv_read_stop]. *)
Theorem callbacks_never_call_reactor (es : list Event) (w : World) :
  forallb is_callback es = true ->
  reactor_calls (trace (run es w)) = reactor_calls (trace w).
Proof.
  apply (run_trace_step (fun a b => reactor_calls b = reactor_calls a)).
  - reflexivity.
  - intros a b c Hab Hbc. congruence.
  - intros e w0 He. rewrite step_trace, reactor_calls_app.
    assert (Hnone : reactor_calls (emitted e w0) = []).
    { destruct e as [| size base kept | | | | |]; try discriminate;
        try reflexivity.
      cbn. destruct (size =? Uv.UV_EOF); [reflexivity |].
      destruct (read_callback (m_state w0)); reflexivity. }
    rewrite Hnone. apply app_nil_r.
Qed.

Lemma callbacks_never_call_reactor_witness :
  let w := BasicStream 5 in
  let es := [on_alloc 4096; on_read 7 4096 false; on_alloc 0;
             on_read (-104) 4096 true; on_view_dropped 4096;
             on_read Uv.UV_EOF 4096 false; on_write_done 3 0] in
  forallb is_callback es = true
  /\ reactor_calls (trace (run es w)) = reactor_calls (trace w).
Proof.
  intros w es. split; [reflexivity |].
  exact (callbacks_never_call_reactor es w eq_refl).
Defined.



(** X8.  Stopping a stream that is not reading.  A [stop_read] the reactor
    accepts resolves the read promise whether or not a batch is open: right
    after the end of a batch (EOF or an accepted stop) it resolves the
    promise once more, with 0. *)
Theorem stop_read_after_ending (w : World) (fin : Event) (res : Z) :
  ends_batch fin = true ->
  0 <= res ->
  result (stop_read res) (exec (step fin) w) = Normal tt
  /\ resolutions (trace (exec (stop_read res) (exec (step fin) w)))
     = resolutions (trace w) ++ [read_count (m_state w); 0].
Proof.
  intros Hfin Hres.
  destruct (step_ends_batch fin w Hfin) as (_ & Hc & _ & Ht).
  pose proof (stop_read_accepted (exec (step fin) w) res Hres) as Hstop.
  revert Hc Ht Hstop. generalize (exec (step fin) w) as w1.
  intros w1 Hc Ht Hstop.
  unfold result, exec. rewrite Hstop.
  cbn [fst snd trace]. split; [reflexivity |].
  rewrite resolutions_app, Ht, Hc, <- app_assoc. reflexivity.
Qed.

Lemma stop_read_after_ending_witness :
  let w := mkWorld (mk_State 5 42 (Some 7%nat) (Promise.Plain Promise.pending)
                             [] []) [] [] in
  let fin := on_read Uv.UV_EOF 0 false in
  (ends_batch fin = true /\ 0 <= 0)
  /\ result (stop_read 0) (exec (step fin) w) = Normal tt
  /\ resolutions (trace (exec (stop_read 0) (exec (step fin) w)))
     = resolutions (trace w) ++ [read_count (m_state w); 0].
Proof.
  intros w fin.
  assert (Hres : 0 <= 0) by lia.
  split; [split; [reflexivity | exact Hres] |].
  exact (stop_read_after_ending w fin 0 eq_refl Hres).
Defined.

(** X9.  The stream only ever empties [read_callback].  After any run the
    callback is empty if the run contains a [stop_read] (accepted or not)
    or a [_read] the reactor refused, and is otherwise the callback the
    stream had at the start: no event installs a callback, and neither EOF
    nor any other callback from the reactor removes one. *)
Theorem read_callback_only_cleared (es : list Event) (w : World) :
  read_callback (m_state (run es w))
  = if existsb clears_callback es then None else read_callback (m_state w).
Proof.
  revert w. induction es as [| e es IH]; intros w; [reflexivity |].
  cbn [run existsb]. rewrite IH, step_read_callback.
  destruct (clears_callback e); cbn; [| reflexivity].
  destruct (existsb clears_callback es); reflexivity.
Qed.

Lemma resets_app (a b : list Effect) :
  resets (a ++ b) = (resets a + resets b)%nat.
Proof.
  induction a as [| e a IH]; [reflexivity |].
  destruct e; cbn; rewrite ?IH; reflexivity.
Qed.

Lemma emitted_endings (e : Event) (w : World) :
  length (resolutions (emitted e w)) = (if ends_batch e then 1 else 0)%nat
  /\ resets (emitted e w) = (if ends_batch e then 1 else 0)%nat.
Proof.
  destruct e as [| size base kept | | | | res |]; cbn; auto.
  - destruct (size =? Uv.UV_EOF); [auto |].
    destruct (read_callback (m_state w)); auto.
  - destruct (res <? 0) eqn:Hneg; destruct (0 <=? res) eqn:Hpos; cbn; auto;
      lia.
Qed.

(** X10.  One resolve and one reset per ended batch.  Over any run, the
    number of [read_promise.resolve] calls and the number of
    [read_promise.reset] calls both grow by the number of events that end
    a batch (EOF given to the data callback, accepted [stop_read]): the
    promise is never resolved by a chunk, by a refused stop or by a
    write. *)
Theorem one_resolve_per_ending (es : list Event) (w : World) :
  length (resolutions (trace (run es w)))
  = (length (resolutions (trace w)) + endings es)%nat
  /\ resets (trace (run es w)) = (resets (trace w) + endings es)%nat.
Proof.
  unfold endings.
  revert w. induction es as [| e es IH]; intros w; [cbn; lia |].
  cbn [run filter]. destruct (IH (exec (step e) w)) as [IHr IHs].
  rewrite IHr, IHs, step_trace, resolutions_app, resets_app, length_app.
  destruct (emitted_endings e w) as [Hr Hs]. rewrite Hr, Hs.
  destruct (ends_batch e); cbn [length]; lia.
Qed.

(** X11.  A view the consumer keeps is released when it dies.  On a stream
    that is reading, a chunk whose view the consumer keeps, followed by the
    death of that view, leaves the stream exactly as the same chunk does
    when the consumer keeps nothing: the release is only deferred. *)
Theorem kept_view_released_later (w : World) (size base : Z) (cb : Callback) :
  size <> Uv.UV_EOF ->
  read_callback (m_state w) = Some cb ->
  result (read_cb size base true) w = Normal tt
  /\ idle (exec (read_cb size base true) w) = idle w
  /\ active (exec (read_cb size base true) w) = active w
  /\ exec (view_deleter base) (exec (read_cb size base true) w)
     = exec (read_cb size base false) w.
Proof.
  intros Hsize Hcb. apply Z.eqb_neq in Hsize.
  destruct w as [[h rc c p i a] reqs tr]. cbn in Hcb. subst c.
  unfold idle, active. run_call. rewrite Hsize. cbn.
  destruct (find_buffer base a) as [[found rest] |]; cbn; auto.
Qed.

Lemma kept_view_released_later_witness :
  let w := mkWorld (mk_State 5 0 (Some 7%nat) (Promise.Plain Promise.pending)
                             [] [mkBuffer 4096 1024]) [] [] in
  (300 <> Uv.UV_EOF /\ read_callback (m_state w) = Some 7%nat)
  /\ result (read_cb 300 4096 true) w = Normal tt
  /\ idle (exec (read_cb 300 4096 true) w) = idle w
  /\ active (exec (read_cb 300 4096 true) w) = active w
  /\ exec (view_deleter 4096) (exec (read_cb 300 4096 true) w)
     = exec (read_cb 300 4096 false) w.
Proof.
  intros w.
  assert (Hsize : 300 <> Uv.UV_EOF) by (unfold Uv.UV_EOF; lia).
  split; [split; [exact Hsize | reflexivity] |].
  exact (kept_view_released_later w 300 4096 7%nat Hsize eq_refl).
Defined.

(* ------------------------------------------------------------------ *)
(** ** Writing beside reading *)

Lemma step_writes_state (e : Event) (w : World) :
  writes e = true -> m_state (exec (step e) w) = m_state w.
Proof.
  intros He. destruct e as [| | | req status | | | res buffer];
    try discriminate.
  - reflexivity.
  - unfold exec. cbn [step]. unfold bind, ret. by_sign res.
    + rewrite (write_rejected w res buffer Hsign). reflexivity.
    + rewrite (write_accepted w res buffer Hsign). reflexivity.
Qed.

(** X12.  Reading and writing do not disturb each other.  A run made of
    writes and write completions leaves the stream state (counter,
    callback, read promise, both buffer lists) as it was; a run without
    them leaves every pending write request as it was. *)
Theorem read_and_write_sides_independent (es : list Event) (w : World) :
  (forallb writes es = true -> m_state (run es w) = m_state w)
  /\ (forallb (fun e => negb (writes e)) es = true ->
      write_requests (run es w) = write_requests w).
Proof.
  split; revert w; induction es as [| e es IH]; intros w Hall;
    try reflexivity;
    cbn [forallb] in Hall; apply andb_true_iff in Hall as [He Hes];
    cbn [run]; rewrite (IH _ Hes).
  - apply step_writes_state, He.
  - rewrite step_write_requests.
    destruct e; try reflexivity; discriminate.
Qed.

Lemma read_and_write_sides_independent_witness :
  let w := mkWorld (mk_State 5 12 (Some 7%nat) (Promise.Plain Promise.pending)
                             [mkBuffer 4096 1024] []) [] [] in
  let ws := [do_write 0 (mkBuffer 100 8); do_write (-32) (mkBuffer 200 9);
             on_write_done 0 (-104)] in
  let rs := [on_alloc 0; on_read 5 4096 false; do_stop_read (-9);
             do_read 0; on_read Uv.UV_EOF 0 false] in
  (forallb writes ws = true /\ m_state (run ws w) = m_state w)
  /\ (forallb (fun e => negb (writes e)) rs = true
      /\ write_requests (run rs (run ws w)) = write_requests (run ws w)).
Proof.
  intros w ws rs. split; (split; [reflexivity |]).
  - exact (proj1 (read_and_write_sides_independent ws w) eq_refl).
  - exact (proj2 (read_and_write_sides_independent rs (run ws w)) eq_refl).
Defined.

(** X13.  The reactor is asked to write the buffer's size modulo 2^32.
    [write] passes [buffer->size()] to [uv_buf_init], whose length is an
    [unsigned int], and keeps the full size for the future: an accepted
    write of a buffer of 2^32 bytes or more submits fewer bytes than the
    future is resolved with when the completion comes; below 2^32 the two
    agree. *)
Theorem write_submits_size_mod_2_32 (w : World) (res : Z) (buffer : Buffer) :
  0 <= res ->
  let w1 := exec (write res buffer) w in
  let req := length (write_requests w) in
  trace w1
  = trace w ++ [uv_write (handle (m_state w))
                         (Uv.mk_buf (data buffer) (size buffer mod 2 ^ 32))]
  /\ future_slot (write_future req) (exec (write_cb req 0) w1)
     = Some (Promise.resolved (size buffer))
  /\ (0 <= size buffer < 2 ^ 32 -> size buffer mod 2 ^ 32 = size buffer)
  /\ (2 ^ 32 <= size buffer -> size buffer mod 2 ^ 32 < size buffer).
Proof.
  intros Hres w1 req.
  split.
  { subst w1. unfold exec. rewrite (write_accepted w res buffer Hres).
    reflexivity. }
  split.
  { destruct (write_then_completion w res 0 buffer [] Hres eq_refl)
      as (_ & _ & Hdone).
    exact Hdone. }
  split.
  - intros Hsmall. apply Z.mod_small, Hsmall.
  - intros Hbig.
    pose proof (Z.mod_pos_bound (size buffer) (2 ^ 32) ltac:(lia)). lia.
Qed.

Lemma write_submits_size_mod_2_32_witness :
  let w := BasicStream 5 in
  let buffer := mkBuffer 4096 (2 ^ 32 + 5) in
  let w1 := exec (write 0 buffer) w in
  0 <= 0
  /\ trace w1 = trace w ++ [uv_write 5 (Uv.mk_buf 4096 5)]
  /\ future_slot (write_future 0) (exec (write_cb 0 0) w1)
     = Some (Promise.resolved (2 ^ 32 + 5)).
Proof.
  intros w buffer w1.
  assert (Hres : 0 <= 0) by lia.
  split; [exact Hres |].
  destruct (write_submits_size_mod_2_32 w 0 buffer Hres) as (Ht & Hf & _).
  split; [exact Ht | exact Hf].
Defined.

(* ------------------------------------------------------------------ *)
(** ** Events and emitters *)

Section EmitterFacts.

Import LwEmitter.

Lemma event_index_impl_shift (I : nat) (id : EventId) (m : event_types) :
  event_index_impl (S I) id m = option_map S (event_index_impl I id m).
Proof.
  revert I. induction m as [| e m IH]; intros I; cbn; [reflexivity |].
  destruct (Nat.eqb id (event_id_type e)); [reflexivity | apply IH].
Qed.

(** The lookup and the update, by recursion on the tuple. *)
Lemma from_cons (id : EventId) (e : IdEvent) (m : event_types) :
  from id (e :: m)
  = if Nat.eqb id (event_id_type e) then Some (event e) else from id m.
Proof.
  unfold from, event_index. cbn [event_index_impl].
  destruct (Nat.eqb id (event_id_type e)); [reflexivity |].
  rewrite event_index_impl_shift.
  destruct (event_index_impl 0 id m); reflexivity.
Qed.

Lemma through_cons (id : EventId) (f : LwEvent.Event -> LwEvent.Event) (e : IdEvent)
      (m : event_types) :
  through id f (e :: m)
  = if Nat.eqb id (event_id_type e)
    then Some (mkIdEvent (event_id_type e) (f (event e)) :: m)
    else option_map (cons e) (through id f m).
Proof.
  unfold through, event_index. cbn [event_index_impl].
  destruct (Nat.eqb id (event_id_type e)); [reflexivity |].
  rewrite event_index_impl_shift.
  destruct (event_index_impl 0 id m); reflexivity.
Qed.

Lemma from_known (id : EventId) (m : event_types) :
  In id (ids_of m) -> exists ev, from id m = Some ev.
Proof.
  induction m as [| e m IH]; cbn; [tauto |].
  intros Hin. rewrite from_cons.
  destruct (Nat.eqb id (event_id_type e)) eqn:E; [eauto |].
  apply Nat.eqb_neq in E. apply IH.
  destruct Hin as [Heq | Hin]; [congruence | exact Hin].
Qed.

(** What an update through an id does to every lookup. *)
Lemma through_from (id : EventId) (f : LwEvent.Event -> LwEvent.Event)
      (m : event_types) (ev : LwEvent.Event) :
  from id m = Some ev ->
  exists m',
    through id f m = Some m'
    /\ ids_of m' = ids_of m
    /\ from id m' = Some (f ev)
    /\ forall id', id' <> id -> from id' m' = from id' m.
Proof.
  revert ev. induction m as [| e m IH]; intros ev; [discriminate |].
  rewrite from_cons, through_cons.
  destruct (Nat.eqb id (event_id_type e)) eqn:E.
  - intros H. injection H as <-. apply Nat.eqb_eq in E.
    eexists. split; [reflexivity |]. split; [reflexivity |].
    split.
    + rewrite from_cons. cbn. rewrite E, Nat.eqb_refl. reflexivity.
    + intros id' Hneq. rewrite !from_cons. cbn [event_id_type].
      destruct (Nat.eqb id' (event_id_type e)) eqn:E'; [| reflexivity].
      apply Nat.eqb_eq in E'. congruence.
  - intros H. destruct (IH ev H) as (m' & Hm' & Hids & Hsame & Hother).
    rewrite Hm'. eexists. split; [reflexivity |].
    split; [cbn; f_equal; exact Hids |].
    split.
    + rewrite from_cons, E. exact Hsame.
    + intros id' Hneq. rewrite !from_cons.
      destruct (Nat.eqb id' (event_id_type e)); [reflexivity |].
      apply Hother, Hneq.
Qed.


Lemma for_each_size (m : event_types) (acc : Z) :
  0 <= acc < 2 ^ 64 ->
  for_each m (fun e size => Uv.to_size_t (size + LwEvent.size (event e))) acc
  = Uv.to_size_t (acc + listeners_total m).
Proof.
  unfold for_each. revert acc.
  induction m as [| e m IH]; intros acc Hacc; cbn.
  - rewrite Z.add_0_r, to_size_t_small by exact Hacc. reflexivity.
  - rewrite IH by apply to_size_t_range.
    rewrite to_size_t_add. f_equal. fold (listeners_total m). lia.
Qed.

Lemma for_each_empty (m : event_types) (acc : bool) :
  for_each m (fun e empty => empty && LwEvent.empty (event e)) acc
  = acc && forallb (fun e => LwEvent.empty (event e)) m.
Proof.
  unfold for_each. revert acc.
  induction m as [| e m IH]; intros acc; cbn.
  - rewrite andb_true_r. reflexivity.
  - rewrite IH, andb_assoc. reflexivity.
Qed.

Lemma listeners_total_zero (m : event_types) :
  0 <= listeners_total m
  /\ (listeners_total m = 0
      <-> forallb (fun e => LwEvent.empty (event e)) m = true).
Proof.
  induction m as [| e m [IHpos IHzero]]; cbn; [split; [lia | tauto] |].
  fold (listeners_total m). unfold LwEvent.size.
  destruct (event e) as [| l ls]; cbn [LwEvent.empty length andb].
  - split; [lia |]. rewrite <- IHzero. lia.
  - split; [lia |]. split; [lia | discriminate].
Qed.

Lemma emitter_size_and_empty_facts (m : event_types) :
  size m = listeners_total m mod 2 ^ 64
  /\ (Forall (fun e => event e = []) m -> empty m = true).
Proof.
  split.
  - unfold size. rewrite for_each_size by lia. reflexivity.
  - intros Hnone. unfold empty. rewrite for_each_empty. cbn.
    apply forallb_forall. intros e He.
    rewrite Forall_forall in Hnone. rewrite (Hnone e He). reflexivity.
Qed.

(** X14.  [size()] and [empty()] of an emitter agree.  [size()] is the
    number of listeners of all the events together, as a [std::size_t];
    [empty()] holds exactly when no event has a listener; so, when the
    listeners number less than 2^64, [empty()] holds exactly when [size()]
    is 0. *)
Theorem emitter_size_and_empty (m : event_types) :
  size m = listeners_total m mod 2 ^ 64
  /\ (empty m = true <-> Forall (fun e => event e = []) m)
  /\ (listeners_total m < 2 ^ 64 -> (empty m = true <-> size m = 0)).
Proof.
  assert (Hsize : size m = listeners_total m mod 2 ^ 64).
  { unfold size. rewrite for_each_size by lia. reflexivity. }
  assert (Hempty : empty m
                   = forallb (fun e => LwEvent.empty (event e)) m).
  { unfold empty. rewrite for_each_empty. reflexivity. }
  destruct (listeners_total_zero m) as [Hpos Hzero].
  split; [exact Hsize |]. split.
  - rewrite Hempty, forallb_forall, Forall_forall.
    split; intros H e He; specialize (H e He);
      destruct (event e); cbn in *; congruence.
  - intros Hfits. rewrite Hsize, Z.mod_small by lia.
    rewrite Hempty. symmetry. exact Hzero.
Qed.

Lemma emitter_size_and_empty_witness :
  let m := [mkIdEvent 1%nat [4%nat; 5%nat]; mkIdEvent 2%nat [];
            mkIdEvent 3%nat [6%nat]] in
  listeners_total m < 2 ^ 64
  /\ size m = listeners_total m mod 2 ^ 64
  /\ (empty m = true <-> Forall (fun e => event e = []) m)
  /\ (empty m = true <-> size m = 0).
Proof.
  intros m.
  assert (Hfits : listeners_total m < 2 ^ 64) by (vm_compute; reflexivity).
  split; [exact Hfits |].
  destruct (emitter_size_and_empty m) as (Hs & He & Hse).
  split; [exact Hs |]. split; [exact He | exact (Hse Hfits)].
Defined.








Lemma registered_cons (id i : EventId) (l : LwEvent.listener_type)
      (regs : list (EventId * LwEvent.listener_type)) :
  registered id ((i, l) :: regs)
  = if Nat.eqb id i then l :: registered id regs else registered id regs.
Proof.
  unfold registered. cbn. destruct (Nat.eqb id i); reflexivity.
Qed.

Lemma register_adds (regs : list (EventId * LwEvent.listener_type))
      (m : event_types) :
  Forall (fun r => In (fst r) (ids_of m)) regs ->
  exists m',
    register regs m = Some m'
    /\ ids_of m' = ids_of m
    /\ forall id ev, from id m = Some ev ->
                     from id m' = Some (ev ++ registered id regs).
Proof.
  unfold register. intros Hall. revert m Hall.
  induction regs as [| [i l] regs IH]; intros m Hall; cbn [map perform_all].
  - exists m. split; [reflexivity |]. split; [reflexivity |].
    intros id ev Hev. cbn. rewrite app_nil_r. exact Hev.
  - inversion Hall as [| r rs Hi Hrest]; subst r rs. cbn [fst snd] in *.
    destruct (from_known i m Hi) as [evi Hevi].
    destruct (through_from i (LwEvent.emplace_back l) m evi Hevi)
      as (m1 & Hm1 & Hids1 & Hsame & Hother).
    cbn [perform]. unfold on. rewrite Hm1.
    rewrite <- Hids1 in Hrest.
    destruct (IH m1 Hrest) as (m' & Hm' & Hids' & Hfrom).
    exists m'. split; [exact Hm' |]. split; [congruence |].
    intros id ev Hev. rewrite registered_cons.
    destruct (Nat.eqb id i) eqn:E.
    + apply Nat.eqb_eq in E. subst id.
      rewrite Hev in Hevi. injection Hevi as <-.
      rewrite (Hfrom i _ Hsame). unfold LwEvent.emplace_back.
      rewrite <- app_assoc. reflexivity.
    + apply Nat.eqb_neq in E.
      apply Hfrom. rewrite (Hother id E). exact Hev.
Qed.

Lemma from_new_emitter (ids : list EventId) (id : EventId) :
  In id ids -> from id (Emitter ids) = Some [].
Proof.
  induction ids as [| x ids IH]; cbn; [tauto |].
  intros Hin. rewrite from_cons. cbn.
  destruct (Nat.eqb id x) eqn:E; [reflexivity |].
  apply Nat.eqb_neq in E. apply IH. destruct Hin; congruence.
Qed.

(** X16.  [emit] calls the listeners of the event in the order they were
    added.  On a new emitter, after any sequence of [on] for ids of the
    tuple, [emit] for an id calls exactly the listeners that were added
    for that id, each once and in the order of the [on] calls, with the
    arguments of the emission, and [size] for that id is their number;
    listeners added for other ids are not called. *)
Theorem emit_calls_in_registration_order {Args : Type} (ids : list EventId)
        (regs : list (EventId * LwEvent.listener_type)) (args : Args) :
  Forall (fun r => In (fst r) ids) regs ->
  exists m,
    register regs (Emitter ids) = Some m
    /\ forall id, In id ids ->
         emit id args m
         = Some (map (fun l => LwEvent.invoke l args) (registered id regs))
         /\ size_of id m = Some (Z.of_nat (length (registered id regs))).
Proof.
  intros Hall.
  assert (Hids : ids_of (Emitter ids) = ids).
  { unfold ids_of, Emitter. rewrite map_map. cbn. apply map_id. }
  rewrite <- Hids in Hall.
  destruct (register_adds regs (Emitter ids) Hall) as (m & Hm & _ & Hfrom).
  exists m. split; [exact Hm |].
  intros id Hin.
  pose proof (Hfrom id [] (from_new_emitter ids id Hin)) as Hid.
  cbn [app] in Hid.
  unfold emit, size_of. rewrite Hid. cbn. auto.
Qed.

Lemma emit_calls_in_registration_order_witness :
  let ids := [10%nat; 20%nat; 30%nat] in
  let regs := [(20%nat, 1%nat); (10%nat, 2%nat); (20%nat, 3%nat);
               (20%nat, 1%nat)] in
  Forall (fun r => In (fst r) ids) regs
  /\ exists m,
      register regs (Emitter ids) = Some m
      /\ forall id, In id ids ->
           emit id 77 m
           = Some (map (fun l => LwEvent.invoke l 77) (registered id regs))
           /\ size_of id m = Some (Z.of_nat (length (registered id regs))).
Proof.
  intros ids regs.
  assert (Hall : Forall (fun r => In (fst r) ids) regs).
  { repeat (constructor; [cbn; tauto |]). constructor. }
  split; [exact Hall |].
  exact (emit_calls_in_registration_order ids regs 77 Hall).
Defined.

Lemma from_clear (id : EventId) (m : event_types) :
  from id (clear m) = option_map (fun _ => []) (from id m).
Proof.
  unfold clear, for_each_element.
  induction m as [| e m IH]; [reflexivity |].
  cbn [map]. rewrite !from_cons. cbn [event_id_type event].
  destruct (Nat.eqb id (event_id_type e)); [reflexivity | exact IH].
Qed.

(** X17.  [clear()] removes every listener and keeps the events.  After
    [clear()] the emitter has the same events in the same order, [empty()]
    holds, [size()] is 0, and [emit] for any id of the tuple calls
    nothing. *)
Theorem clear_removes_every_listener {Args : Type} (m : event_types)
        (id : EventId) (args : Args) :
  ids_of (clear m) = ids_of m
  /\ empty (clear m) = true
  /\ size (clear m) = 0
  /\ emit id args (clear m) = option_map (fun _ => []) (emit id args m)
  /\ (In id (ids_of m) -> emit id args (clear m) = Some []).
Proof.
  assert (Hzero : listeners_total (clear m) = 0).
  { unfold clear, for_each_element, listeners_total.
    induction m as [| e m IH]; [reflexivity |].
    cbn [map fold_right event]. rewrite IH. reflexivity. }
  assert (Hids : ids_of (clear m) = ids_of m).
  { unfold ids_of, clear, for_each_element. rewrite map_map. reflexivity. }
  assert (Hnone : Forall (fun e => event e = []) (clear m)).
  { unfold clear, for_each_element. apply Forall_forall.
    intros e He. apply in_map_iff in He as (x & <- & _). reflexivity. }
  destruct (emitter_size_and_empty_facts (clear m)) as (Hsize & Hempty).
  split; [exact Hids |].
  split; [apply Hempty, Hnone |].
  split; [rewrite Hsize, Hzero; reflexivity |].
  assert (Hemit : emit id args (clear m)
                  = option_map (fun _ => []) (emit id args m)).
  { unfold emit. rewrite from_clear. destruct (from id m); reflexivity. }
  split; [exact Hemit |].
  intros Hin. rewrite Hemit. unfold emit.
  destruct (from_known id m Hin) as [ev ->]. reflexivity.
Qed.

Lemma clear_removes_every_listener_witness :
  let m := [mkIdEvent 10%nat [1%nat; 2%nat]; mkIdEvent 20%nat [5%nat]] in
  In 20%nat (ids_of m)
  /\ ids_of (clear m) = ids_of m
  /\ empty (clear m) = true
  /\ size (clear m) = 0
  /\ emit 20%nat 77 (clear m) = Some [].
Proof.
  intros m.
  assert (Hin : In 20%nat (ids_of m)) by (cbn; tauto).
  split; [exact Hin |].
  destruct (clear_removes_every_listener m 20%nat 77)
    as (Hids & Hempty & Hsize & _ & Hemit).
  split; [exact Hids |]. split; [exact Hempty |].
  split; [exact Hsize | exact (Hemit Hin)].
Defined.

Lemma call_remove_if {Args : Type} (pred : LwEvent.listener_type -> bool)
      (args : Args) (ev : LwEvent.Event) :
  LwEvent.call args (LwEvent.remove_if pred ev)
  = filter (fun c => negb (pred (LwEvent.called c))) (LwEvent.call args ev).
Proof.
  unfold LwEvent.call, LwEvent.remove_if.
  induction ev as [| l ev IH]; [reflexivity |].
  cbn. destruct (pred l); cbn; rewrite ?IH; reflexivity.
Qed.

(** X18.  [remove_if] removes the listeners the predicate accepts, from one
    event.  For an id of the tuple, [emit] after [remove_if] makes the
    calls it made before without those to listeners the predicate
    accepts, in the same order; the other events are called as before;
    and [clear] for an id is [remove_if] with a predicate that accepts
    every listener. *)
Theorem remove_if_filters_listeners {Args : Type} (m : event_types)
        (id : EventId) (pred : LwEvent.listener_type -> bool) (args : Args) :
  In id (ids_of m) ->
  exists m' calls,
    remove_if id pred m = Some m'
    /\ emit id args m = Some calls
    /\ emit id args m'
       = Some (filter (fun c => negb (pred (LwEvent.called c))) calls)
    /\ (forall id', id' <> id -> emit id' args m' = emit id' args m)
    /\ clear_of id m = remove_if id (fun _ => true) m.
Proof.
  intros Hin.
  destruct (from_known id m Hin) as [ev Hev].
  destruct (through_from id (LwEvent.remove_if pred) m ev Hev)
    as (m' & Hm' & _ & Hsame & Hother).
  exists m', (LwEvent.call args ev).
  split; [exact Hm' |].
  split; [unfold emit; rewrite Hev; reflexivity |].
  split.
  - unfold emit. rewrite Hsame. cbn. f_equal. apply call_remove_if.
  - split.
    + intros id' Hneq. unfold emit. rewrite (Hother id' Hneq). reflexivity.
    + unfold clear_of, remove_if, through.
      destruct (event_index id m) as [k |]; [| reflexivity].
      f_equal. clear. revert k.
      induction m as [| e m IH]; intros [| k]; cbn; try reflexivity.
      * f_equal. f_equal. unfold LwEvent.clear, LwEvent.remove_if.
        induction (event e) as [| l ls IHl]; [reflexivity | exact IHl].
      * f_equal. apply IH.
Qed.

Lemma remove_if_filters_listeners_witness :
  let m := [mkIdEvent 10%nat [1%nat; 2%nat; 3%nat; 4%nat];
            mkIdEvent 20%nat [5%nat]] in
  In 10%nat (ids_of m)
  /\ exists m' calls,
      remove_if 10%nat Nat.even m = Some m'
      /\ emit 10%nat 77 m = Some calls
      /\ emit 10%nat 77 m'
         = Some (filter (fun c => negb (Nat.even (LwEvent.called c))) calls)
      /\ (forall id', id' <> 10%nat -> emit id' 77 m' = emit id' 77 m)
      /\ clear_of 10%nat m = remove_if 10%nat (fun _ => true) m.
Proof.
  intros m.
  assert (Hin : In 10%nat (ids_of m)) by (cbn; tauto).
  split; [exact Hin |].
  exact (remove_if_filters_listeners m 10%nat Nat.even 77 Hin).
Defined.

End EmitterFacts.
